(** * The [hashtree] package of sphinx-master: Merkle tree, root file,
      leaf store and mapped-file guard

    A shallow embedding of [core/hashtree] (Go).  Pure code is a Rocq
    function; code that talks to LevelDB, to the file system or to the
    process-wide ceiling threads an explicit state.  A Go [error] value
    is an [option error]: [None] is [nil]. *)

From stdpp Require Import gmap strings list pretty.
From Equations Require Import Equations.

Local Open Scope Z_scope.

(** ** Common data *)

(** [[]byte] *)
Abbreviation bytes := (list Byte.byte).

(** Go's [error] values, as far as the package tells them apart.
    [leveldb.ErrNotFound] is compared by identity in [PruneOldLeaves];
    [fmt.Errorf] with a [%w] verb wraps, without one it only formats. *)
Inductive error : Type :=
| ErrNotFound
| ErrIO (reason : string)
| ErrWrap (context : string) (cause : error)
| ErrMsg (message : string).

Global Instance error_eq_dec : EqDecision error.
Proof. solve_decision. Defined.

(** ** Hash tree *)

#[local] Unset Elimination Schemes.
Inductive HashTreeNode : Type :=
  mkNode { Hash : bytes;
           Left : option HashTreeNode;
           Right : option HashTreeNode }.
#[local] Set Elimination Schemes.

Module HashTree.
Section Builder.

(** [sha256.Sum256], the external digest primitive. *)
Variable Sum256 : bytes → bytes.

Definition computeHash (data : bytes) : bytes := Sum256 data.

(** [&HashTreeNode{Hash: computeHash(leaf)}] *)
Definition leafNode (leaf : bytes) : HashTreeNode :=
  {| Hash := computeHash leaf; Left := None; Right := None |}.

(** [&HashTreeNode{Hash: hash, Left: left, Right: right}] with
    [hash := computeHash(append(left.Hash, right.Hash...))].  A digest
    is a full slice of a 32-byte array, so [append] copies and leaves
    [left.Hash] as it was. *)
Definition parentNode (a b : HashTreeNode) : HashTreeNode :=
  {| Hash := computeHash (Hash a ++ Hash b);
     Left := Some a; Right := Some b |}.

(** The inner loop [for i := 0; i < len(nodes); i += 2]: the nodes at
    [i] and [i+1] give a parent; a last node without a right
    neighbour is appended as it is. *)
Fixpoint nextLevel (nodes : list HashTreeNode) : list HashTreeNode :=
  match nodes with
  | a :: b :: rest => parentNode a b :: nextLevel rest
  | [carried] => [carried]
  | [] => []
  end.

Lemma nextLevel_length_le nodes :
  (length (nextLevel nodes) ≤ length nodes)%nat
  ∧ ((1 < length nodes)%nat → (length (nextLevel nodes) < length nodes)%nat).
Proof.
  induction nodes as [nodes IH] using (induction_ltof1 _ length).
  unfold ltof in IH.
  destruct nodes as [|a [|b rest]]; simpl; [lia | lia |].
  destruct (IH rest) as [Hle _]; [simpl; lia | lia].
Qed.

Lemma nextLevel_shrinks nodes :
  (1 < length nodes)%nat → (length (nextLevel nodes) < length nodes)%nat.
Proof. apply nextLevel_length_le. Qed.

(** The outer loop [for len(nodes) > 1 { ...; nodes = nextLevel }]. *)
Equations? reduceLevels (nodes : list HashTreeNode) : list HashTreeNode
  by wf (length nodes) lt :=
  reduceLevels nodes with decide (1 < length nodes)%nat => {
    | left _ := reduceLevels (nextLevel nodes);
    | right _ := nodes }.
Proof. by apply nextLevel_shrinks. Qed.

(** [BuildHashTree].  The final [nodes[0]] is a list lookup: [None]
    is Go's run-time panic "index out of range [0] with length 0". *)
Definition BuildHashTree (leaves : list bytes) : option HashTreeNode :=
  let nodes := leafNode <$> leaves in
  reduceLevels nodes !! 0%nat.

End Builder.
End HashTree.

(** *** Vocabulary for statements about trees *)

(** Every node of the tree under [t], [t] first. *)
Fixpoint nodesOf (t : HashTreeNode) : list HashTreeNode :=
  match t with
  | mkNode _ l r =>
      t :: match l with Some a => nodesOf a | None => [] end
        ++ match r with Some b => nodesOf b | None => [] end
  end.

(** The nodes without children under [t], from left to right. *)
Fixpoint fringe (t : HashTreeNode) : list HashTreeNode :=
  match t with
  | mkNode _ None None => [t]
  | mkNode _ l r =>
      match l with Some a => fringe a | None => [] end
        ++ match r with Some b => fringe b | None => [] end
  end.

(** A node is shaped as a leaf, or as a parent that carries the hash of
    its children's digests, left one first; a tree is well hashed when
    all its nodes are. *)
Definition wellShaped (Sum256 : bytes → bytes) (n : HashTreeNode) : Prop :=
  (Left n = None ∧ Right n = None)
  ∨ (∃ l r, Left n = Some l ∧ Right n = Some r
            ∧ Hash n = HashTree.computeHash Sum256 (Hash l ++ Hash r)).

Definition wellHashed (Sum256 : bytes → bytes) (t : HashTreeNode) : Prop :=
  ∀ n, n ∈ nodesOf t → wellShaped Sum256 n.

(** A perfect tree of height [h]: every childless node is [h] steps
    below the root. *)
Fixpoint perfect (h : nat) (t : HashTreeNode) : Prop :=
  match h with
  | O => Left t = None ∧ Right t = None
  | S h' =>
      ∃ l r, Left t = Some l ∧ Right t = Some r ∧ perfect h' l ∧ perfect h' r
  end.

(** A stand-in for SHA-256 to run the builder on concrete leaves: any
    function from byte strings to 32 bytes will do, the theorems hold
    for every digest function. *)
Definition sampleSum256 (data : bytes) : bytes :=
  let acc := foldl (λ acc b, (acc * 257 + Byte.to_N b + 1) `mod` 2 ^ 256)%N 0%N data in
  (λ i : nat, default Byte.x00 (Byte.of_N ((acc `div` 256 ^ N.of_nat i) `mod` 256)%N))
    <$> seq 0 32.

(** ** The environment: fallible calls

    Every call into LevelDB or the operating system may fail for reasons
    the package does not control.  The state of such a collaborator
    carries a [schedule]: entry [n] says whether the [n]-th coming call
    meets an I/O failure, and with which reason.  A call takes the head
    of the schedule; an exhausted schedule means no more failures.
    Theorems quantify over the schedule, hence over every pattern of
    failures. *)

Abbreviation schedule := (list (option string)).

Definition nextFault (s : schedule) : option string := default None (head s).

(** Go's [(value, error)] results: on an error the value is [nil]. *)
Inductive result (A : Type) : Type :=
| Ok (value : A)
| Err (err : error).
Arguments Ok {A} value.
Arguments Err {A} err.

(** ** LevelDB, as the package uses it *)

Module leveldb.

(** One record staged in a [leveldb.Batch]. *)
Inductive record : Type :=
| RecPut (key : string) (value : bytes)
| RecDelete (key : string).

Definition Batch := list record.

(** [batch.Put(key, value)] appends a record. *)
Definition Batch_Put (batch : Batch) (key : string) (value : bytes) : Batch :=
  batch ++ [RecPut key value].

Inductive call : Type :=
| CallPut (key : string) (value : bytes)
| CallGet (key : string)
| CallDelete (key : string)
| CallWrite (batch : Batch).

(** A database handle: its committed [data], the failures its coming
    calls will meet, whether [Delete] of an absent key reports
    [ErrNotFound] (the store contract of the specification) or
    succeeds silently (goleveldb's documented behaviour), and the
    history of the [calls] made on it. *)
Record DB : Type := mkDB {
  data : gmap string bytes;
  faults : schedule;
  strict_delete : bool;
  calls : list call }.

(** After a call [c] that leaves the contents [d]. *)
Definition after (db : DB) (c : call) (d : gmap string bytes) : DB :=
  {| data := d; faults := tail (faults db);
     strict_delete := strict_delete db; calls := calls db ++ [c] |}.

Definition Put (db : DB) (key : string) (value : bytes) : DB * option error :=
  match nextFault (faults db) with
  | Some reason => (after db (CallPut key value) (data db), Some (ErrIO reason))
  | None => (after db (CallPut key value) (<[key := value]> (data db)), None)
  end.

Definition Get (db : DB) (key : string) : DB * result bytes :=
  let db' := after db (CallGet key) (data db) in
  match nextFault (faults db) with
  | Some reason => (db', Err (ErrIO reason))
  | None =>
      match data db !! key with
      | Some value => (db', Ok value)
      | None => (db', Err ErrNotFound)
      end
  end.

Definition Delete (db : DB) (key : string) : DB * option error :=
  match nextFault (faults db) with
  | Some reason => (after db (CallDelete key) (data db), Some (ErrIO reason))
  | None =>
      match data db !! key with
      | None =>
          (after db (CallDelete key) (data db),
           if strict_delete db then Some ErrNotFound else None)
      | Some _ => (after db (CallDelete key) (delete key (data db)), None)
      end
  end.

Definition applyRecord (d : gmap string bytes) (r : record) : gmap string bytes :=
  match r with
  | RecPut key value => <[key := value]> d
  | RecDelete key => delete key d
  end.

(** [db.Write(batch, nil)]: the store's atomic batch primitive, all
    records in staging order or nothing. *)
Definition Write (db : DB) (batch : Batch) : DB * option error :=
  match nextFault (faults db) with
  | Some reason => (after db (CallWrite batch) (data db), Some (ErrIO reason))
  | None => (after db (CallWrite batch) (foldl applyRecord (data db) batch), None)
  end.

End leveldb.

(** ** Leaf store *)

(** [fmt.Sprintf("leaf-%d", i)] *)
Definition leafKey (i : Z) : string := "leaf-" +:+ pretty i.

(** The loop [for i, leaf := range leaves] of [SaveLeavesToDB], from
    index [i] on. *)
Fixpoint saveLeavesFrom (i : Z) (db : leveldb.DB) (leaves : list bytes)
  : leveldb.DB * option error :=
  match leaves with
  | [] => (db, None)
  | leaf :: rest =>
      let key := leafKey i in
      match leveldb.Put db key leaf with
      | (db', Some err) => (db', Some err)
      | (db', None) => saveLeavesFrom (i + 1) db' rest
      end
  end.

Definition SaveLeavesToDB (db : leveldb.DB) (leaves : list bytes)
  : leveldb.DB * option error :=
  saveLeavesFrom 0 db leaves.

Definition FetchLeafFromDB (db : leveldb.DB) (key : string)
  : leveldb.DB * result bytes :=
  leveldb.Get db key.

(** The loop [for i := 0; i < numLeaves; i++] of [PruneOldLeaves], with
    [todo] iterations left. *)
Fixpoint pruneFrom (i : Z) (todo : nat) (db : leveldb.DB)
  : leveldb.DB * option error :=
  match todo with
  | O => (db, None)
  | S todo' =>
      let key := leafKey i in
      match leveldb.Delete db key with
      | (db', Some err) =>
          if decide (err ≠ ErrNotFound) then (db', Some err)
          else pruneFrom (i + 1) todo' db'
      | (db', None) => pruneFrom (i + 1) todo' db'
      end
  end.

Definition PruneOldLeaves (db : leveldb.DB) (numLeaves : Z)
  : leveldb.DB * option error :=
  pruneFrom 0 (Z.to_nat numLeaves) db.

(** The staging loop of [SaveLeavesBatchToDB], from index [i] on. *)
Fixpoint stageLeavesFrom (i : Z) (batch : leveldb.Batch) (leaves : list bytes)
  : leveldb.Batch :=
  match leaves with
  | [] => batch
  | leaf :: rest =>
      let key := leafKey i in
      stageLeavesFrom (i + 1) (leveldb.Batch_Put batch key leaf) rest
  end.

Definition SaveLeavesBatchToDB (db : leveldb.DB) (leaves : list bytes)
  : leveldb.DB * option error :=
  let batch := stageLeavesFrom 0 [] leaves in
  leveldb.Write db batch.

Definition FetchLeafConcurrent (db : leveldb.DB) (key : string)
  : leveldb.DB * result bytes :=
  leveldb.Get db key.

(** *** Vocabulary for statements about the store *)

(** The failure, if any, that the [j]-th coming call meets. *)
Definition faultAt (s : schedule) (j : nat) : option string :=
  default None (s !! j).

(** None of the next [n] calls meets a failure. *)
Definition quiet (s : schedule) (n : nat) : Prop :=
  Forall (λ fault, fault = None) (take n s).

Global Instance quiet_dec s n : Decision (quiet s n).
Proof. unfold quiet. apply _. Defined.

(** The contents after storing [leaves] under the keys of [i], [i+1],
    and so on. *)
Fixpoint storeAll (i : Z) (d : gmap string bytes) (leaves : list bytes)
  : gmap string bytes :=
  match leaves with
  | [] => d
  | leaf :: rest => storeAll (i + 1) (<[leafKey i := leaf]> d) rest
  end.

(** The contents after removing the keys of [i], ..., [i + todo - 1]. *)
Fixpoint deleteAll (i : Z) (todo : nat) (d : gmap string bytes)
  : gmap string bytes :=
  match todo with
  | O => d
  | S todo' => deleteAll (i + 1) todo' (delete (leafKey i) d)
  end.

(** The [Put] calls for [leaves] from index [i] on, the staged records
    for them, and the [Delete] calls for [todo] keys from [i] on. *)
Fixpoint putCalls (i : Z) (leaves : list bytes) : list leveldb.call :=
  match leaves with
  | [] => []
  | leaf :: rest => leveldb.CallPut (leafKey i) leaf :: putCalls (i + 1) rest
  end.

Fixpoint putRecords (i : Z) (leaves : list bytes) : leveldb.Batch :=
  match leaves with
  | [] => []
  | leaf :: rest => leveldb.RecPut (leafKey i) leaf :: putRecords (i + 1) rest
  end.

Fixpoint deleteCalls (i : Z) (todo : nat) : list leveldb.call :=
  match todo with
  | O => []
  | S todo' => leveldb.CallDelete (leafKey i) :: deleteCalls (i + 1) todo'
  end.

(** ** Root persistence *)

Module ioutil.

(** The files [ioutil] sees, by name, and the failures of its coming
    calls.  A failed call leaves the files as they were. *)
Record fsys : Type := mkFsys {
  files : gmap string bytes;
  faults : schedule }.

(** [ioutil.WriteFile(filename, data, perm)] creates or truncates. *)
Definition WriteFile (fs : fsys) (filename : string) (data : bytes) (perm : Z)
  : fsys * option error :=
  match nextFault (faults fs) with
  | Some reason =>
      ({| files := files fs; faults := tail (faults fs) |}, Some (ErrIO reason))
  | None =>
      ({| files := <[filename := data]> (files fs); faults := tail (faults fs) |},
       None)
  end.

Definition ReadFile (fs : fsys) (filename : string) : fsys * result bytes :=
  let fs' := {| files := files fs; faults := tail (faults fs) |} in
  match nextFault (faults fs) with
  | Some reason => (fs', Err (ErrIO reason))
  | None =>
      match files fs !! filename with
      | Some data => (fs', Ok data)
      | None => (fs', Err (ErrIO "no such file or directory"))
      end
  end.

End ioutil.

Definition SaveRootHashToFile (fs : ioutil.fsys) (root : HashTreeNode)
  (filename : string) : ioutil.fsys * option error :=
  ioutil.WriteFile fs filename (Hash root) 0x1a4 (* 0644 *).

Definition LoadRootHashFromFile (fs : ioutil.fsys) (filename : string)
  : ioutil.fsys * result bytes :=
  ioutil.ReadFile fs filename.

(** ** Mapped file guard *)

(** Go's [int] on the 64-bit platforms the package maps files on:
    arithmetic wraps around in two's complement. *)
Definition int_bits : Z := 64.

Definition wrap_int (z : Z) : Z :=
  (z + 2 ^ (int_bits - 1)) `mod` 2 ^ int_bits - 2 ^ (int_bits - 1).

Definition int_mul (a b : Z) : Z := wrap_int (a * b).

(** The package-level variables, and what was written to standard
    output. *)
Record globals : Type := mkGlobals {
  maxFileSize : Z;
  stdout : list string }.

(** [var maxFileSize = 1 << 30] *)
Definition initial : globals :=
  {| maxFileSize := 1 ≪ 30; stdout := [] |}.

Definition setMaxFileSize (g : globals) (sizeInGiB : Z) : globals :=
  if decide (sizeInGiB ≤ 0) then
    {| maxFileSize := maxFileSize g;
       stdout := stdout g ++ ["Invalid size. Must be greater than 0."] |}
  else
    {| maxFileSize := int_mul sizeInGiB (1 ≪ 30); stdout := stdout g |}.

Module os.

(** What [Stat] and [Mmap] see of a file: its size and its bytes by
    offset. *)
Record file : Type := mkFile {
  size : Z;
  byteAt : Z → Byte.byte }.

(** An open [*os.File]. *)
Record handle : Type := mkHandle {
  name : string;
  opened : file }.

(** The [[]byte] that [syscall.Mmap] returns: a view of [len] bytes. *)
Record view : Type := mkView {
  len : Z;
  at_ : Z → Byte.byte }.

Inductive syscall : Type :=
| SysOpen (filename : string)
| SysStat (filename : string)
| SysMmap (filename : string) (offset length : Z)
| SysClose (filename : string).

(** The operating system: the files by name, the failures of its
    coming calls, the mappings established so far and the history of
    system calls. *)
Record state : Type := mkState {
  files : gmap string file;
  faults : schedule;
  mappings : list (string * Z);
  trace : list syscall }.

Definition Open (st : state) (filename : string) : state * result handle :=
  let st' := {| files := files st; faults := tail (faults st);
                mappings := mappings st;
                trace := trace st ++ [SysOpen filename] |} in
  match nextFault (faults st) with
  | Some reason => (st', Err (ErrIO reason))
  | None =>
      match files st !! filename with
      | Some f => (st', Ok {| name := filename; opened := f |})
      | None => (st', Err (ErrIO "no such file or directory"))
      end
  end.

(** [file.Stat()] followed by [stat.Size()]. *)
Definition Stat (st : state) (h : handle) : state * result Z :=
  let st' := {| files := files st; faults := tail (faults st);
                mappings := mappings st;
                trace := trace st ++ [SysStat (name h)] |} in
  match nextFault (faults st) with
  | Some reason => (st', Err (ErrIO reason))
  | None => (st', Ok (size (opened h)))
  end.

(** [syscall.Mmap(fd, offset, length, PROT_READ, MAP_SHARED)].  Go's
    wrapper refuses a length that is not positive with [EINVAL]
    before it asks the kernel. *)
Definition Mmap (st : state) (h : handle) (offset length : Z)
  : state * result view :=
  let failed := {| files := files st; faults := tail (faults st);
                   mappings := mappings st;
                   trace := trace st ++ [SysMmap (name h) offset length] |} in
  if decide (length ≤ 0) then (failed, Err (ErrIO "invalid argument"))
  else
    match nextFault (faults st) with
    | Some reason => (failed, Err (ErrIO reason))
    | None =>
        ({| files := files st; faults := tail (faults st);
            mappings := mappings st ++ [(name h, length)];
            trace := trace st ++ [SysMmap (name h) offset length] |},
         Ok {| len := length; at_ := λ i, byteAt (opened h) (offset + i) |})
    end.

(** [file.Close()]; the deferred call drops its error. *)
Definition Close (st : state) (h : handle) : state :=
  {| files := files st; faults := faults st; mappings := mappings st;
     trace := trace st ++ [SysClose (name h)] |}.

End os.

(** [fmt.Errorf("file size exceeds maximum limit of %d bytes", maxFileSize)] *)
Definition tooLarge (limit : Z) : error :=
  ErrMsg ("file size exceeds maximum limit of " +:+ pretty limit +:+ " bytes").

Definition MemoryMapFile (g : globals) (st : os.state) (filename : string)
  : os.state * result os.view :=
  match os.Open st filename with
  | (st1, Err err) => (st1, Err (ErrWrap "error opening file" err))
  | (st1, Ok file) =>
      (* from here on the deferred [file.Close()] runs at every return *)
      match os.Stat st1 file with
      | (st2, Err err) =>
          (os.Close st2 file, Err (ErrWrap "error getting file stats" err))
      | (st2, Ok size) =>
          (* [int64(maxFileSize)] and, below, [int(size)] change nothing
             where [int] has 64 bits *)
          if decide (size > maxFileSize g) then
            (os.Close st2 file, Err (tooLarge (maxFileSize g)))
          else
            match os.Mmap st2 file 0 size with
            | (st3, Err err) =>
                (os.Close st3 file, Err (ErrWrap "error mapping file" err))
            | (st3, Ok data) => (os.Close st3 file, Ok data)
            end
      end
  end.

(** A second stand-in with 32-byte output, one with collisions that
    are easy to exhibit: the first 32 bytes of the input, padded with
    zeros. *)
Definition prefixSum256 (data : bytes) : bytes :=
  take 32 (data ++ replicate 32 Byte.x00).

(** ** The SWIFFTX binding (package [swifftx])

    [SWIFFTXHash] (called [Hash] in [swifftx.go], with the same body)
    hands the input to the C function [HashInput] of the cgo preamble
    together with a 128-byte Go slice for the result.  The C library
    behind [SHA3.h] is a parameter. *)

Module swifftx.

(** The memory that C code reaches through a pointer to the first
    element of a Go slice: the [cells] of the slice, and the stores
    that landed [beyond] its last element, by offset. *)
Record cbuffer : Type := mkBuffer {
  cells : bytes;
  beyond : list (nat * Byte.byte) }.

(** [p[offset] = b] *)
Definition store (buf : cbuffer) (offset : nat) (b : Byte.byte) : cbuffer :=
  if (offset <? length (cells buf))%nat then
    {| cells := <[offset := b]> (cells buf); beyond := beyond buf |}
  else
    {| cells := cells buf; beyond := beyond buf ++ [(offset, b)] |}.

(** The digit of a value below 16 in ["0123456789ABCDEF"]. *)
Definition hexDigit (n : N) : Byte.byte :=
  default Byte.x30
    ([Byte.x30; Byte.x31; Byte.x32; Byte.x33; Byte.x34; Byte.x35; Byte.x36;
      Byte.x37; Byte.x38; Byte.x39; Byte.x41; Byte.x42; Byte.x43; Byte.x44;
      Byte.x45; Byte.x46] !! N.to_nat n).

(** The two characters that ["%02X"] prints for an [unsigned char]. *)
Definition hex2 (v : Byte.byte) : Byte.byte * Byte.byte :=
  (hexDigit (Byte.to_N v `div` 16)%N, hexDigit (Byte.to_N v `mod` 16)%N).

(** [sprintf(p + offset, "%02X", v)]: two digits and the terminating
    NUL. *)
Definition sprintf_02X (buf : cbuffer) (offset : nat) (v : Byte.byte) : cbuffer :=
  store (store (store buf offset (hex2 v).1) (offset + 1) (hex2 v).2)
        (offset + 2) Byte.x00.

(** The loop [for (int i = 0; i < 64; i++)] of [HashInput], with
    [todo] rounds left.  [resultingDigest[i]] is read with a default
    for an index outside the array; the theorems assume an array of at
    least 64 bytes. *)
Fixpoint hexLoop (i todo : nat) (resultingDigest : bytes) (output : cbuffer)
  : cbuffer :=
  match todo with
  | O => output
  | S todo' =>
      hexLoop (S i) todo' resultingDigest
        (sprintf_02X output (i * 2) (default Byte.x00 (resultingDigest !! i)))
  end.

Definition SUCCESS : Z := 0.

Section WithLibrary.

(** [SWIFFTX_OUTPUT_BLOCK_SIZE] of [SHA3.h]. *)
Variable SWIFFTX_OUTPUT_BLOCK_SIZE : nat.

(** [Hash(hashbitlen, data, databitlen, hashval)] of the C library:
    from the bit length asked for, the data, its length in bits and the
    digest array as it is, the exit code and the digest array
    afterwards. *)
Variable libHash : Z → bytes → Z → bytes → Z * bytes.

Definition HashInput (input : bytes) (length : Z) (output : cbuffer) : cbuffer :=
  let resultingDigest := replicate SWIFFTX_OUTPUT_BLOCK_SIZE Byte.x00 in
  match libHash 512 input (length * 8) resultingDigest with
  | (exitCode, resultingDigest) =>
      if decide (exitCode = SUCCESS) then hexLoop 0 64 resultingDigest output
      else output
  end.

(** What a call leaves: the string and the error it returns, and the
    bytes the C code stored past the end of [output]. *)
Record outcome : Type := mkOutcome {
  returned : bytes;
  err : option error;
  overrun : list (nat * Byte.byte) }.

Definition SWIFFTXHash (input : bytes) : outcome :=
  let length := Z.of_nat (length input) in
  let output := {| cells := replicate 128 Byte.x00; beyond := [] |} in
  let output := HashInput input length output in
  {| returned := cells output; err := None; overrun := beyond output |}.

End WithLibrary.

(** The text of a byte string in upper-case hexadecimal. *)
Definition hexUpper (data : bytes) : bytes :=
  data ≫= λ v, [(hex2 v).1; (hex2 v).2].

(** A library to run the binding on: it always succeeds, with the first
    64 bytes of the input, padded with ones, as digest. *)
Definition sampleLibHash (hashbitlen : Z) (data : bytes) (databitlen : Z)
  (hashval : bytes) : Z * bytes :=
  (SUCCESS, take 64 (data ++ replicate 64 Byte.x01) ++ drop 64 hashval).

(** A library that always fails and leaves the digest array alone. *)
Definition failingLibHash (hashbitlen : Z) (data : bytes) (databitlen : Z)
  (hashval : bytes) : Z * bytes :=
  (1, hashval).

End swifftx.

(** * Theorems *)

(** ** Hash tree builder *)

Module HashTreeFacts.
Import HashTree.
Section Facts.

Variable Sum256 : bytes → bytes.

Abbreviation computeHash := (computeHash Sum256).
Abbreviation leafNode := (leafNode Sum256).
Abbreviation parentNode := (parentNode Sum256).
Abbreviation nextLevel := (nextLevel Sum256).
Abbreviation reduceLevels := (reduceLevels Sum256).
Abbreviation BuildHashTree := (BuildHashTree Sum256).
Abbreviation wellShaped := (wellShaped Sum256).
Abbreviation wellHashed := (wellHashed Sum256).

Lemma reduceLevels_step nodes :
  (1 < length nodes)%nat → reduceLevels nodes = reduceLevels (nextLevel nodes).
Proof.
  intros Hlen. rewrite reduceLevels_equation_1.
  destruct (decide (1 < length nodes)%nat); [done | lia].
Qed.

Lemma reduceLevels_done nodes :
  ¬ (1 < length nodes)%nat → reduceLevels nodes = nodes.
Proof.
  intros Hlen. rewrite reduceLevels_equation_1.
  destruct (decide (1 < length nodes)%nat); [lia | done].
Qed.

(** Induction two nodes at a time, as [nextLevel] recurses. *)
Lemma pairwise_ind (P : list HashTreeNode → Prop) :
  P [] → (∀ a, P [a]) → (∀ a b rest, P rest → P (a :: b :: rest)) →
  ∀ nodes, P nodes.
Proof.
  intros Hnil Hone Hpair.
  assert (∀ nodes, P nodes ∧ ∀ a, P (a :: nodes)) as H.
  { induction nodes as [|b rest [IH1 IH2]]; split; auto. }
  intros nodes. apply H.
Qed.

Lemma nextLevel_nonempty nodes : nodes ≠ [] → nextLevel nodes ≠ [].
Proof. by destruct nodes as [|a [|b rest]]. Qed.

(** What every round of the outer loop preserves, the loop
    preserves. *)
Lemma reduceLevels_invariant (I : list HashTreeNode → Prop) :
  (∀ nodes, I nodes → I (nextLevel nodes)) →
  ∀ nodes, I nodes → I (reduceLevels nodes).
Proof.
  intros Hstep nodes.
  induction nodes as [nodes IH] using (induction_ltof1 _ length).
  unfold ltof in IH. intros Hnodes.
  destruct (decide (1 < length nodes)%nat) as [Hlen|Hlen].
  - rewrite reduceLevels_step by done.
    apply IH; [by apply nextLevel_shrinks | by apply Hstep].
  - by rewrite reduceLevels_done.
Qed.

Lemma reduceLevels_length nodes :
  ¬ (1 < length (reduceLevels nodes))%nat.
Proof.
  induction nodes as [nodes IH] using (induction_ltof1 _ length).
  unfold ltof in IH.
  destruct (decide (1 < length nodes)%nat) as [Hlen|Hlen].
  - rewrite reduceLevels_step by done. apply IH. by apply nextLevel_shrinks.
  - by rewrite reduceLevels_done.
Qed.

(** The loop ends with exactly one node when it starts with at least
    one. *)
Lemma reduceLevels_singleton nodes :
  nodes ≠ [] → ∃ root, reduceLevels nodes = [root].
Proof.
  intros Hne.
  pose proof (reduceLevels_length nodes) as Hlen.
  pose proof (reduceLevels_invariant (λ l, l ≠ []) nextLevel_nonempty nodes Hne) as Hne'.
  destruct (reduceLevels nodes) as [|root [|b rest]]; [done | by exists root |].
  simpl in Hlen. lia.
Qed.


Lemma wellHashed_leafNode leaf : wellHashed (leafNode leaf).
Proof.
  intros n Hn. simpl in Hn. apply list_elem_of_singleton in Hn as ->.
  by left.
Qed.

Lemma wellHashed_parentNode a b :
  wellHashed a → wellHashed b → wellHashed (parentNode a b).
Proof.
  intros Ha Hb n Hn. simpl in Hn.
  apply elem_of_cons in Hn as [-> | Hn].
  - right. by exists a, b.
  - apply elem_of_app in Hn as [Hn | Hn]; [by apply Ha | by apply Hb].
Qed.

Lemma nextLevel_wellHashed nodes :
  Forall wellHashed nodes → Forall wellHashed (nextLevel nodes).
Proof.
  induction nodes as [|a|a b rest IH] using pairwise_ind; simpl; [done..|].
  intros Hall.
  apply Forall_cons in Hall as [Ha Hall].
  apply Forall_cons in Hall as [Hb Hrest].
  apply Forall_cons. split; [by apply wellHashed_parentNode | by apply IH].
Qed.

Lemma fringe_parentNode a b : fringe (parentNode a b) = fringe a ++ fringe b.
Proof. done. Qed.

Lemma nextLevel_fringe nodes :
  concat (fringe <$> nextLevel nodes) = concat (fringe <$> nodes).
Proof.
  induction nodes as [|a|a b rest IH] using pairwise_ind; [done..|].
  cbn [nextLevel fmap list_fmap concat].
  rewrite fringe_parentNode, IH. by rewrite (assoc_L (++)).
Qed.

Lemma leaves_fringe leaves :
  concat (fringe <$> (leafNode <$> leaves)) = leafNode <$> leaves.
Proof. induction leaves as [|leaf rest IH]; [done|]. simpl. by f_equal. Qed.

Lemma leaves_wellHashed leaves : Forall wellHashed (leafNode <$> leaves).
Proof.
  apply Forall_fmap, Forall_forall. intros leaf _. apply wellHashed_leafNode.
Qed.

Lemma BuildHashTree_returns leaves :
  leaves ≠ [] →
  ∃ root, reduceLevels (leafNode <$> leaves) = [root]
          ∧ BuildHashTree leaves = Some root.
Proof.
  intros Hne.
  destruct (reduceLevels_singleton (leafNode <$> leaves)) as [root Hroot].
  { by destruct leaves. }
  exists root. split; [done|]. unfold BuildHashTree. by rewrite Hroot.
Qed.

(** C1: for the three leaves [A; B; C] the first level pairs [A] with
    [B] into [P1], whose digest is the hash of the two leaf digests
    joined, and passes the node of [C] on as it is; the tree returned
    has [P1] as left child, the untouched node of [C] as right child,
    and the digest hash(hash(hash A ++ hash B) ++ hash C). *)
Theorem build_three_leaves_carry (A B C : bytes) :
  let P1 := parentNode (leafNode A) (leafNode B) in
  nextLevel [leafNode A; leafNode B; leafNode C] = [P1; leafNode C]
  ∧ Hash P1 = computeHash (computeHash A ++ computeHash B)
  ∧ Hash (leafNode C) = computeHash C
  ∧ ∃ root, BuildHashTree [A; B; C] = Some root
      ∧ Left root = Some P1
      ∧ Right root = Some (leafNode C)
      ∧ Hash root =
          computeHash
            (computeHash (computeHash A ++ computeHash B) ++ computeHash C).
Proof.
  intros P1. split; [done|]. split; [done|]. split; [done|].
  exists (parentNode P1 (leafNode C)).
  split; [|done].
  unfold BuildHashTree. cbn [fmap list_fmap].
  rewrite reduceLevels_step by (simpl; lia). cbn [HashTree.nextLevel].
  rewrite reduceLevels_step by (simpl; lia). cbn [HashTree.nextLevel].
  by rewrite reduceLevels_done by (simpl; lia).
Qed.

(** C2: the tree built from a non-empty leaf sequence exists, and each
    of its nodes either has no children or has both and carries the
    hash of the left child's digest followed by the right child's;
    the childless nodes are, from left to right, the hashed input
    leaves. *)
Theorem build_internal_nodes_hash_children (leaves : list bytes) :
  leaves ≠ [] →
  ∃ root, BuildHashTree leaves = Some root
    ∧ (∀ n, n ∈ nodesOf root →
         (Left n = None ∧ Right n = None)
         ∨ (∃ l r, Left n = Some l ∧ Right n = Some r
                   ∧ Hash n = computeHash (Hash l ++ Hash r)))
    ∧ fringe root = leafNode <$> leaves.
Proof.
  intros Hne.
  destruct (BuildHashTree_returns leaves Hne) as (root & Hloop & Hbuild).
  exists root. split; [done|].
  pose proof (reduceLevels_invariant
    (λ nodes, Forall wellHashed nodes
              ∧ concat (fringe <$> nodes) = leafNode <$> leaves)) as Hinv.
  destruct (Hinv) with (nodes := leafNode <$> leaves) as [Hwell Hfringe].
  - intros nodes [Hw Hf]. split; [by apply nextLevel_wellHashed|].
    by rewrite nextLevel_fringe.
  - split; [apply leaves_wellHashed | apply leaves_fringe].
  - rewrite Hloop in Hwell, Hfringe. split.
    + rewrite Forall_singleton in Hwell. exact Hwell.
    + simpl in Hfringe. by rewrite (right_id_L [] (++)) in Hfringe.
Qed.

(** C10: on the empty leaf sequence the final [nodes[0]] is out of
    range and no node is returned; a root is returned exactly for the
    non-empty sequences. *)
Theorem build_empty_panics :
  reduceLevels (leafNode <$> []) = []
  ∧ BuildHashTree [] = None
  ∧ ∀ leaves, BuildHashTree leaves = None ↔ leaves = [].
Proof.
  assert (reduceLevels [] = []) as Hnil.
  { by rewrite reduceLevels_done by (simpl; lia). }
  assert (BuildHashTree [] = None) as Hbuild.
  { unfold BuildHashTree. cbn [fmap list_fmap]. by rewrite Hnil. }
  split; [done|]. split; [done|].
  intros leaves. split.
  - intros Hnone. destruct leaves as [|leaf rest]; [done|].
    destruct (BuildHashTree_returns (leaf :: rest)) as (root & _ & Hsome);
      [done | congruence].
  - by intros ->.
Qed.

End Facts.
End HashTreeFacts.

(** ** Failure schedules *)

Lemma faultAt_0 s : faultAt s 0 = nextFault s.
Proof. by destruct s. Qed.

Lemma faultAt_tail s j : faultAt (tail s) j = faultAt s (S j).
Proof. by destruct s. Qed.

Lemma faultAt_drop s n j : faultAt (drop n s) j = faultAt s (n + j).
Proof. unfold faultAt. by rewrite lookup_drop. Qed.

Lemma quiet_S s n : quiet s (S n) → nextFault s = None ∧ quiet (tail s) n.
Proof.
  unfold quiet. destruct s as [|fault s]; simpl.
  - by rewrite take_nil.
  - intros Hq. by apply Forall_cons in Hq.
Qed.

Lemma quiet_le s n m : (m ≤ n)%nat → quiet s n → quiet s m.
Proof.
  unfold quiet. intros Hle Hq.
  replace m with (m `min` n)%nat by lia. rewrite <- take_take.
  by apply Forall_take.
Qed.

Lemma quiet_drop s n m : quiet s (n + m) → quiet (drop n s) m.
Proof.
  unfold quiet. intros Hq. rewrite take_drop_commute. by apply Forall_drop.
Qed.

Lemma drop_tail (s : schedule) n : drop n (tail s) = drop (S n) s.
Proof. destruct s; simpl; [by rewrite drop_nil | done]. Qed.

(** ** Leaf store *)

Module LeafStoreFacts.
Import leveldb.

Lemma leafKey_inj i j : leafKey i = leafKey j → i = j.
Proof.
  unfold leafKey. intros Heq. simplify_eq/=. by apply (inj pretty).
Qed.

(** *** What the stored and the removed keys look like afterwards *)

Lemma storeAll_other i d leaves key :
  (∀ j, (j < length leaves)%nat → key ≠ leafKey (i + Z.of_nat j)) →
  storeAll i d leaves !! key = d !! key.
Proof.
  revert i d. induction leaves as [|leaf rest IH]; intros i d Hkey; [done|].
  simpl. rewrite IH.
  - apply lookup_insert_ne. intros Heq.
    apply (Hkey 0%nat); [simpl; lia|]. by rewrite Z.add_0_r.
  - intros j Hj. replace (i + 1 + Z.of_nat j) with (i + Z.of_nat (S j)) by lia.
    apply Hkey. simpl. lia.
Qed.

Lemma storeAll_stored i d leaves j leaf :
  leaves !! j = Some leaf →
  storeAll i d leaves !! leafKey (i + Z.of_nat j) = Some leaf.
Proof.
  revert i d j. induction leaves as [|first rest IH]; intros i d j Hj; [done|].
  destruct j as [|j]; simpl in *.
  - injection Hj as ->. rewrite storeAll_other.
    + rewrite Z.add_0_r. apply lookup_insert_eq.
    + intros j _ Heq. apply leafKey_inj in Heq. lia.
  - replace (i + Z.of_nat (S j)) with (i + 1 + Z.of_nat j) by lia.
    by apply IH.
Qed.

Lemma deleteAll_other i todo d key :
  (∀ j, (j < todo)%nat → key ≠ leafKey (i + Z.of_nat j)) →
  deleteAll i todo d !! key = d !! key.
Proof.
  revert i d. induction todo as [|todo IH]; intros i d Hkey; [done|].
  simpl. rewrite IH.
  - apply lookup_delete_ne. intros Heq.
    apply (Hkey 0%nat); [lia|]. by rewrite Z.add_0_r.
  - intros j Hj. replace (i + 1 + Z.of_nat j) with (i + Z.of_nat (S j)) by lia.
    apply Hkey. lia.
Qed.

Lemma deleteAll_gone i todo d key :
  d !! key = None → deleteAll i todo d !! key = None.
Proof.
  revert i d. induction todo as [|todo IH]; intros i d Hnone; [done|].
  simpl. apply IH. rewrite lookup_delete. by case_decide.
Qed.

Lemma deleteAll_deleted i todo d j :
  (j < todo)%nat → deleteAll i todo d !! leafKey (i + Z.of_nat j) = None.
Proof.
  revert i d j. induction todo as [|todo IH]; intros i d j Hj; [lia|].
  destruct j as [|j]; simpl.
  - apply deleteAll_gone. rewrite Z.add_0_r. apply lookup_delete_eq.
  - replace (i + Z.of_nat (S j)) with (i + 1 + Z.of_nat j) by lia.
    apply IH. lia.
Qed.

Lemma deleteAll_absent i todo d :
  (∀ j, (j < todo)%nat → d !! leafKey (i + Z.of_nat j) = None) →
  deleteAll i todo d = d.
Proof.
  revert i d. induction todo as [|todo IH]; intros i d Habs; [done|].
  simpl. rewrite delete_id.
  - apply IH. intros j Hj.
    replace (i + 1 + Z.of_nat j) with (i + Z.of_nat (S j)) by lia.
    apply Habs. lia.
  - specialize (Habs 0%nat). rewrite Z.add_0_r in Habs. apply Habs. lia.
Qed.

Lemma putCalls_imap i leaves :
  putCalls i leaves = imap (λ j leaf, CallPut (leafKey (i + Z.of_nat j)) leaf) leaves.
Proof.
  revert i. induction leaves as [|leaf rest IH]; intros i; [done|].
  simpl. rewrite Z.add_0_r, IH. f_equal.
  apply imap_ext. intros j x _. simpl. do 2 f_equal. lia.
Qed.

Lemma putRecords_imap i leaves :
  putRecords i leaves = imap (λ j leaf, RecPut (leafKey (i + Z.of_nat j)) leaf) leaves.
Proof.
  revert i. induction leaves as [|leaf rest IH]; intros i; [done|].
  simpl. rewrite Z.add_0_r, IH. f_equal.
  apply imap_ext. intros j x _. simpl. do 2 f_equal. lia.
Qed.

Lemma deleteCalls_seq i todo :
  deleteCalls i todo = (λ j : nat, CallDelete (leafKey (i + Z.of_nat j))) <$> seq 0 todo.
Proof.
  revert i. induction todo as [|todo IH]; intros i; [done|].
  simpl. rewrite Z.add_0_r, IH. f_equal.
  rewrite <- fmap_S_seq, <- list_fmap_compose.
  apply list_fmap_ext. intros _ j _. simpl. do 2 f_equal. lia.
Qed.


(** *** The loops *)

Lemma saveLeavesFrom_quiet leaves i db :
  quiet (faults db) (length leaves) →
  saveLeavesFrom i db leaves =
    ({| data := storeAll i (data db) leaves;
        faults := drop (length leaves) (faults db);
        strict_delete := strict_delete db;
        calls := calls db ++ putCalls i leaves |}, None).
Proof.
  revert i db. induction leaves as [|leaf rest IH]; intros i db Hq.
  - destruct db. simpl. by rewrite (right_id_L [] (++)).
  - apply quiet_S in Hq as [Hnow Hlater].
    cbn [saveLeavesFrom]. unfold Put. rewrite Hnow.
    rewrite IH by done. cbn [after data faults strict_delete calls].
    cbn [storeAll putCalls length]. by rewrite drop_tail, <- (assoc_L (++)).
Qed.

Lemma saveLeavesFrom_fault leaves i db k reason :
  (k < length leaves)%nat →
  quiet (faults db) k →
  faultAt (faults db) k = Some reason →
  saveLeavesFrom i db leaves =
    ({| data := storeAll i (data db) (take k leaves);
        faults := drop (S k) (faults db);
        strict_delete := strict_delete db;
        calls := calls db ++ putCalls i (take (S k) leaves) |},
     Some (ErrIO reason)).
Proof.
  revert i db k. induction leaves as [|leaf rest IH]; intros i db k Hk Hq Hfault.
  { simpl in Hk. lia. }
  cbn [saveLeavesFrom]. unfold Put. destruct k as [|k].
  - rewrite faultAt_0 in Hfault. rewrite Hfault.
    cbn [take storeAll putCalls after]. by rewrite <- (drop_tail _ 0).
  - apply quiet_S in Hq as [Hnow Hlater]. rewrite Hnow.
    rewrite (IH _ _ k); cbn [after data faults strict_delete calls].
    + cbn [take storeAll putCalls]. by rewrite drop_tail, <- (assoc_L (++)).
    + simpl in Hk. lia.
    + done.
    + by rewrite faultAt_tail.
Qed.

Lemma stageLeavesFrom_app leaves i batch :
  stageLeavesFrom i batch leaves = batch ++ putRecords i leaves.
Proof.
  revert i batch. induction leaves as [|leaf rest IH]; intros i batch.
  - simpl. by rewrite (right_id_L [] (++)).
  - cbn [stageLeavesFrom putRecords]. rewrite IH. unfold Batch_Put.
    by rewrite <- (assoc_L (++)).
Qed.

Lemma applyRecords_storeAll leaves i d :
  foldl applyRecord d (putRecords i leaves) = storeAll i d leaves.
Proof.
  revert i d. induction leaves as [|leaf rest IH]; intros i d; [done|].
  simpl. apply IH.
Qed.

Lemma pruneFrom_quiet todo i db :
  quiet (faults db) todo →
  pruneFrom i todo db =
    ({| data := deleteAll i todo (data db);
        faults := drop todo (faults db);
        strict_delete := strict_delete db;
        calls := calls db ++ deleteCalls i todo |}, None).
Proof.
  revert i db. induction todo as [|todo IH]; intros i db Hq.
  - destruct db. simpl. by rewrite (right_id_L [] (++)).
  - apply quiet_S in Hq as [Hnow Hlater].
    cbn [pruneFrom]. unfold Delete. rewrite Hnow.
    assert (∀ d,
      pruneFrom (i + 1) todo (after db (CallDelete (leafKey i)) d) =
        ({| data := deleteAll (i + 1) todo d;
            faults := drop (S todo) (faults db);
            strict_delete := strict_delete db;
            calls := calls db ++ deleteCalls i (S todo) |}, None)) as Hrest.
    { intros d. rewrite IH by done. cbn [after data faults strict_delete calls].
      cbn [deleteCalls]. by rewrite drop_tail, <- (assoc_L (++)). }
    cbn [deleteAll].
    destruct (data db !! leafKey i) as [value|] eqn:Hkey.
    + apply Hrest.
    + rewrite (delete_id (data db)) by done.
      destruct (strict_delete db) eqn:Hstrict;
        [rewrite decide_False by (intros Hne; by apply Hne)|];
        rewrite Hrest; by rewrite ?Hstrict.
Qed.

Lemma pruneFrom_fault todo i db k reason :
  (k < todo)%nat →
  quiet (faults db) k →
  faultAt (faults db) k = Some reason →
  pruneFrom i todo db =
    ({| data := deleteAll i k (data db);
        faults := drop (S k) (faults db);
        strict_delete := strict_delete db;
        calls := calls db ++ deleteCalls i (S k) |},
     Some (ErrIO reason)).
Proof.
  revert i db k. induction todo as [|todo IH]; intros i db k Hk Hq Hfault; [lia|].
  cbn [pruneFrom]. unfold Delete. destruct k as [|k].
  - rewrite faultAt_0 in Hfault. rewrite Hfault.
    rewrite decide_True by done.
    cbn [deleteAll deleteCalls after]. by rewrite <- (drop_tail _ 0).
  - apply quiet_S in Hq as [Hnow Hlater]. rewrite Hnow.
    assert (∀ d,
      pruneFrom (i + 1) todo (after db (CallDelete (leafKey i)) d) =
        ({| data := deleteAll (i + 1) k d;
            faults := drop (S (S k)) (faults db);
            strict_delete := strict_delete db;
            calls := calls db ++ deleteCalls i (S (S k)) |},
         Some (ErrIO reason))) as Hrest.
    { intros d. rewrite (IH _ _ k); cbn [after data faults strict_delete calls].
      - cbn [deleteCalls]. by rewrite drop_tail, <- (assoc_L (++)).
      - lia.
      - done.
      - by rewrite faultAt_tail. }
    cbn [deleteAll].
    destruct (data db !! leafKey i) as [value|] eqn:Hkey.
    + apply Hrest.
    + rewrite (delete_id (data db)) by done.
      destruct (strict_delete db) eqn:Hstrict;
        [rewrite decide_False by (intros Hne; by apply Hne)|];
        rewrite Hrest; by rewrite ?Hstrict.
Qed.

(** *** The claims about the leaf store *)

(** C6: [SaveLeavesToDB] puts leaf [j] under ["leaf-<j>"], in order
    from index 0.  When no put fails it returns [nil] with every leaf
    stored.  When the put at index [k] is the first to fail, it returns
    that error at once: the calls made are the puts for indices 0 to
    [k] and nothing else, the leaves before [k] are in the store, and
    every other key holds what it held before. *)
Theorem save_leaves_stops_without_rollback (db : DB) (leaves : list bytes) :
  (quiet (faults db) (length leaves) →
   ∃ db', SaveLeavesToDB db leaves = (db', None)
     ∧ calls db' =
         calls db ++ imap (λ j leaf, CallPut (leafKey (Z.of_nat j)) leaf) leaves
     ∧ (∀ (j : nat) leaf, leaves !! j = Some leaf →
          data db' !! leafKey (Z.of_nat j) = Some leaf))
  ∧ (∀ (k : nat) reason,
       (k < length leaves)%nat →
       quiet (faults db) k →
       faultAt (faults db) k = Some reason →
       ∃ db', SaveLeavesToDB db leaves = (db', Some (ErrIO reason))
         ∧ calls db' =
             calls db
             ++ imap (λ j leaf, CallPut (leafKey (Z.of_nat j)) leaf)
                     (take (S k) leaves)
         ∧ (∀ (j : nat) leaf, (j < k)%nat → leaves !! j = Some leaf →
              data db' !! leafKey (Z.of_nat j) = Some leaf)
         ∧ (∀ key, (∀ j : nat, (j < k)%nat → key ≠ leafKey (Z.of_nat j)) →
              data db' !! key = data db !! key)).
Proof.
  unfold SaveLeavesToDB. split.
  - intros Hq. eexists. split; [by apply saveLeavesFrom_quiet|].
    cbn [data calls]. split.
    + by rewrite putCalls_imap.
    + intros j leaf Hj. by apply (storeAll_stored 0).
  - intros k reason Hk Hq Hfault. eexists.
    split; [by apply (saveLeavesFrom_fault _ _ _ k reason)|].
    cbn [data calls]. split; [by rewrite putCalls_imap|]. split.
    + intros j leaf Hj Hleaf. apply (storeAll_stored 0).
      by rewrite lookup_take_lt.
    + intros key Hkey. apply storeAll_other.
      intros j Hj. rewrite length_take in Hj. apply Hkey. lia.
Qed.

(** C4: [SaveLeavesBatchToDB] stages exactly the pairs
    (["leaf-<j>"], leaf [j]), one per leaf and in order, and hands them
    to the store in one [Write] call, its only call.  By the atomicity
    of that primitive, either every leaf is in the store afterwards
    and no other key has changed, or the call failed and the contents
    are what they were. *)
Theorem save_leaves_batch_one_atomic_write (db : DB) (leaves : list bytes) :
  ∃ batch db' r,
    batch = imap (λ j leaf, RecPut (leafKey (Z.of_nat j)) leaf) leaves
    ∧ stageLeavesFrom 0 [] leaves = batch
    ∧ length batch = length leaves
    ∧ SaveLeavesBatchToDB db leaves = (db', r)
    ∧ Write db batch = (db', r)
    ∧ calls db' = calls db ++ [CallWrite batch]
    ∧ ((r = None
        ∧ (∀ (j : nat) leaf, leaves !! j = Some leaf →
             data db' !! leafKey (Z.of_nat j) = Some leaf)
        ∧ (∀ key, (∀ j : nat, (j < length leaves)%nat →
                      key ≠ leafKey (Z.of_nat j)) →
             data db' !! key = data db !! key))
       ∨ (∃ reason, r = Some (ErrIO reason) ∧ data db' = data db)).
Proof.
  assert (stageLeavesFrom 0 [] leaves =
            imap (λ j leaf, RecPut (leafKey (Z.of_nat j)) leaf) leaves) as Hstage.
  { rewrite stageLeavesFrom_app. simpl. by rewrite putRecords_imap. }
  exists (imap (λ j leaf, RecPut (leafKey (Z.of_nat j)) leaf) leaves).
  unfold SaveLeavesBatchToDB. rewrite Hstage.
  destruct (Write db _) as [db' r] eqn:Hwrite.
  exists db', r. split; [done|]. split; [done|].
  split; [by rewrite length_imap|]. split; [done|]. split; [done|].
  unfold Write in Hwrite.
  destruct (nextFault (faults db)) as [reason|];
    injection Hwrite as <- <-; cbn [after data calls].
  - split; [done|]. right. by exists reason.
  - split; [done|]. left. split; [done|].
    rewrite <- (putRecords_imap 0), applyRecords_storeAll. split.
    + intros j leaf Hj. by apply (storeAll_stored 0).
    + intros key Hkey. by apply storeAll_other.
Qed.

(** C5: [PruneOldLeaves] deletes ["leaf-0"], ["leaf-1"], ... in order.
    As long as the store itself does not fail, the call returns [nil]
    whichever of the keys are present (a delete that finds no key,
    reported as not-found or not, does not stop the loop), all
    [numLeaves] deletes are made and the keys are gone.  When the
    delete at index [k] is the first to fail with another error, that
    error is returned at once, no further delete is made and the keys
    from [k] on hold what they held.  Hence two calls in a row with the
    same count both return [nil], the second finding every key
    absent and changing nothing. *)
Theorem prune_swallows_not_found (db : DB) (numLeaves : Z) :
  (quiet (faults db) (Z.to_nat numLeaves) →
   ∃ db', PruneOldLeaves db numLeaves = (db', None)
     ∧ calls db' =
         calls db
         ++ ((λ j : nat, CallDelete (leafKey (Z.of_nat j)))
               <$> seq 0 (Z.to_nat numLeaves))
     ∧ (∀ i, 0 ≤ i < numLeaves → data db' !! leafKey i = None)
     ∧ (∀ key, (∀ i, 0 ≤ i < numLeaves → key ≠ leafKey i) →
          data db' !! key = data db !! key))
  ∧ (∀ (k : nat) reason,
       Z.of_nat k < numLeaves →
       quiet (faults db) k →
       faultAt (faults db) k = Some reason →
       ∃ db', PruneOldLeaves db numLeaves = (db', Some (ErrIO reason))
         ∧ calls db' =
             calls db
             ++ ((λ j : nat, CallDelete (leafKey (Z.of_nat j))) <$> seq 0 (S k))
         ∧ (∀ i, Z.of_nat k ≤ i → data db' !! leafKey i = data db !! leafKey i))
  ∧ (quiet (faults db) (Z.to_nat numLeaves + Z.to_nat numLeaves) →
     ∃ db1 db2,
       PruneOldLeaves db numLeaves = (db1, None)
       ∧ PruneOldLeaves db1 numLeaves = (db2, None)
       ∧ (∀ i, 0 ≤ i < numLeaves → data db1 !! leafKey i = None)
       ∧ data db2 = data db1).
Proof.
  unfold PruneOldLeaves.
  assert (∀ d i, 0 ≤ i < numLeaves →
            deleteAll 0 (Z.to_nat numLeaves) d !! leafKey i = None) as Hgone.
  { intros d i Hi. replace i with (0 + Z.of_nat (Z.to_nat i)) by lia.
    apply deleteAll_deleted. lia. }
  split; [|split].
  - intros Hq. eexists. split; [by apply pruneFrom_quiet|].
    cbn [data calls]. split; [by rewrite deleteCalls_seq|]. split.
    + apply Hgone.
    + intros key Hkey. apply deleteAll_other. intros j Hj. apply Hkey. lia.
  - intros k reason Hk Hq Hfault. eexists.
    split; [apply (pruneFrom_fault _ _ _ k reason); [lia | done | done] |].
    cbn [data calls]. split; [by rewrite deleteCalls_seq|].
    intros i Hi. apply deleteAll_other.
    intros j Hj Heq. apply leafKey_inj in Heq. lia.
  - intros Hq. do 2 eexists.
    split; [apply pruneFrom_quiet; by eapply quiet_le, Hq; lia|].
    split; [apply pruneFrom_quiet; cbn [faults]; by apply quiet_drop|].
    cbn [data]. split; [apply Hgone|].
    apply deleteAll_absent. intros j Hj. apply Hgone. lia.
Qed.

(** C9: [FetchLeafConcurrent] and [FetchLeafFromDB] give the same
    result and leave the same store on every store and key: each is the
    one [Get] call on the key and nothing else. *)
Theorem fetch_concurrent_same_as_fetch (db : DB) (key : string) :
  FetchLeafConcurrent db key = FetchLeafFromDB db key
  ∧ FetchLeafConcurrent db key = Get db key
  ∧ calls (FetchLeafConcurrent db key).1 = calls db ++ [CallGet key]
  ∧ data (FetchLeafConcurrent db key).1 = data db.
Proof.
  unfold FetchLeafConcurrent, FetchLeafFromDB. repeat split.
  all: unfold Get; destruct (nextFault (faults db)); [done|];
       by destruct (data db !! key).
Qed.

End LeafStoreFacts.

(** ** Root persistence *)

(** C3: when [SaveRootHashToFile] succeeds, the file holds the raw
    digest and nothing else, and [LoadRootHashFromFile] on the same
    name returns exactly those bytes; the only other outcome is the
    I/O error of the read itself, passed on unchanged. *)
Theorem root_file_round_trip
  (fs fs1 : ioutil.fsys) (root : HashTreeNode) (filename : string) :
  SaveRootHashToFile fs root filename = (fs1, None) →
  ioutil.files fs1 !! filename = Some (Hash root)
  ∧ (LoadRootHashFromFile fs1 filename).2 =
      match nextFault (ioutil.faults fs1) with
      | None => Ok (Hash root)
      | Some reason => Err (ErrIO reason)
      end.
Proof.
  unfold SaveRootHashToFile, LoadRootHashFromFile, ioutil.WriteFile, ioutil.ReadFile.
  destruct (nextFault (ioutil.faults fs)) as [reason|]; [done|].
  intros [= <-]. cbn [ioutil.files ioutil.faults].
  rewrite lookup_insert_eq. split; [done|].
  by destruct (nextFault (tail (ioutil.faults fs))).
Qed.

(** ** Mapped file guard *)

Lemma wrap_int_small z : - 2 ^ 63 ≤ z < 2 ^ 63 → wrap_int z = z.
Proof.
  intros Hz. unfold wrap_int, int_bits.
  change (64 - 1) with 63. rewrite Z.mod_small; lia.
Qed.

(** X13: where [setMaxFileSize] converts as its comment says: an argument
    that is not positive leaves the ceiling as it is and only prints
    the warning; a positive argument below 2^33 sets the ceiling to
    that many GiB in bytes. *)
Lemma setMaxFileSize_in_range (g : globals) (sizeInGiB : Z) :
  (sizeInGiB ≤ 0 →
     maxFileSize (setMaxFileSize g sizeInGiB) = maxFileSize g
     ∧ stdout (setMaxFileSize g sizeInGiB) =
         stdout g ++ ["Invalid size. Must be greater than 0."])
  ∧ (0 < sizeInGiB < 2 ^ 33 →
     maxFileSize (setMaxFileSize g sizeInGiB) = sizeInGiB * 2 ^ 30
     ∧ stdout (setMaxFileSize g sizeInGiB) = stdout g).
Proof.
  unfold setMaxFileSize. split; intros Hsize.
  - by rewrite decide_True by lia.
  - rewrite decide_False by lia. cbn [maxFileSize stdout]. split; [|done].
    unfold int_mul. change (1 ≪ 30) with (2 ^ 30).
    apply wrap_int_small. lia.
Qed.

Lemma MemoryMapFile_after_stat (g : globals) (st : os.state) filename f :
  os.files st !! filename = Some f →
  quiet (os.faults st) 2 →
  let h := {| os.name := filename; os.opened := f |} in
  let st2 := {| os.files := os.files st;
                os.faults := drop 2 (os.faults st);
                os.mappings := os.mappings st;
                os.trace := os.trace st
                              ++ [os.SysOpen filename; os.SysStat filename] |} in
  MemoryMapFile g st filename =
    if decide (os.size f > maxFileSize g) then
      (os.Close st2 h, Err (tooLarge (maxFileSize g)))
    else
      match os.Mmap st2 h 0 (os.size f) with
      | (st3, Err err) => (os.Close st3 h, Err (ErrWrap "error mapping file" err))
      | (st3, Ok data) => (os.Close st3 h, Ok data)
      end.
Proof.
  intros Hfile Hq h st2.
  apply quiet_S in Hq as [Hopen Hq]. apply quiet_S in Hq as [Hstat _].
  unfold MemoryMapFile, os.Open. rewrite Hopen, Hfile.
  unfold os.Stat. cbn [os.faults os.files os.mappings os.trace os.name os.opened].
  rewrite Hstat.
  replace (tail (tail (os.faults st))) with (drop 2 (os.faults st))
    by (by destruct (os.faults st) as [|? [|? ?]]).
  by rewrite <- (assoc_L (++)).
Qed.

Lemma MemoryMapFile_mapped (g : globals) (st : os.state) filename f :
  os.files st !! filename = Some f →
  quiet (os.faults st) 2 →
  os.size f ≤ maxFileSize g →
  0 < os.size f →
  faultAt (os.faults st) 2 = None →
  MemoryMapFile g st filename =
    ({| os.files := os.files st;
        os.faults := drop 3 (os.faults st);
        os.mappings := os.mappings st ++ [(filename, os.size f)];
        os.trace := os.trace st
                      ++ [os.SysOpen filename; os.SysStat filename;
                          os.SysMmap filename 0 (os.size f);
                          os.SysClose filename] |},
     Ok {| os.len := os.size f; os.at_ := λ i, os.byteAt f (0 + i) |}).
Proof.
  intros Hfile Hq Hle Hpos Hfault.
  rewrite (MemoryMapFile_after_stat g st filename f Hfile Hq).
  rewrite decide_False by lia.
  unfold os.Mmap. rewrite decide_False by lia.
  cbn [os.faults os.files os.mappings os.trace os.name os.opened].
  rewrite <- faultAt_0, faultAt_drop, Nat.add_0_r, Hfault.
  unfold os.Close. cbn [os.faults os.files os.mappings os.trace os.name].
  rewrite <- !(assoc_L (++)). simpl.
  by destruct (os.faults st) as [|? [|? [|? ?]]].
Qed.

(** C7: for a file that opens and whose size is read, [MemoryMapFile]
    answers with the capacity error exactly when the size is strictly
    above the ceiling.  In that case no mapping is made: the system
    calls are open, stat and close.  Otherwise the file is handed to
    [Mmap] with its full size, and when that call does not fail the
    result is a view of the whole file.  So a file of a size equal to a
    positive ceiling is mapped, and a file one byte larger is refused. *)
Theorem map_file_ceiling
  (g : globals) (st : os.state) (filename : string) (f : os.file) :
  os.files st !! filename = Some f →
  quiet (os.faults st) 2 →
  ((MemoryMapFile g st filename).2 = Err (tooLarge (maxFileSize g))
     ↔ os.size f > maxFileSize g)
  ∧ (os.size f > maxFileSize g →
       os.mappings (MemoryMapFile g st filename).1 = os.mappings st
       ∧ os.trace (MemoryMapFile g st filename).1 =
           os.trace st ++ [os.SysOpen filename; os.SysStat filename;
                           os.SysClose filename])
  ∧ (os.size f ≤ maxFileSize g → 0 < os.size f →
       faultAt (os.faults st) 2 = None →
       (MemoryMapFile g st filename).2 =
          Ok {| os.len := os.size f; os.at_ := λ i, os.byteAt f (0 + i) |}
       ∧ os.mappings (MemoryMapFile g st filename).1 =
           os.mappings st ++ [(filename, os.size f)])
  ∧ (os.size f = maxFileSize g → 0 < maxFileSize g →
       faultAt (os.faults st) 2 = None →
       ∃ data, (MemoryMapFile g st filename).2 = Ok data
               ∧ os.len data = os.size f)
  ∧ (os.size f = maxFileSize g + 1 →
       (MemoryMapFile g st filename).2 = Err (tooLarge (maxFileSize g))).
Proof.
  intros Hfile Hq.
  split; [|split; [|split; [|split]]].
  - rewrite (MemoryMapFile_after_stat g st filename f Hfile Hq).
    destruct (decide (os.size f > maxFileSize g)) as [Hgt|Hle]; [done|].
    split; [|done]. unfold os.Mmap.
    destruct (decide (os.size f ≤ 0)); [done|].
    by destruct (nextFault _).
  - intros Hgt.
    rewrite (MemoryMapFile_after_stat g st filename f Hfile Hq).
    rewrite decide_True by done.
    cbn [fst os.Close os.mappings os.trace]. split; [done|].
    by rewrite <- (assoc_L (++)).
  - intros Hle Hpos Hfault. by rewrite (MemoryMapFile_mapped g st filename f).
  - intros Heq Hpos Hfault.
    rewrite (MemoryMapFile_mapped g st filename f) by (done || lia).
    by eexists.
  - intros Heq.
    rewrite (MemoryMapFile_after_stat g st filename f Hfile Hq).
    by rewrite decide_True by lia.
Qed.

(** C8 at 2^33 GiB: the product 2^63 does not fit Go's 64-bit [int];
    the ceiling becomes the most negative [int] instead of 2^63, and
    with it [MemoryMapFile] refuses every file, the empty one
    included. *)
Theorem set_ceiling_wraps_around :
  0 < 2 ^ 33
  ∧ maxFileSize (setMaxFileSize initial (2 ^ 33)) = - 2 ^ 63
  ∧ maxFileSize (setMaxFileSize initial (2 ^ 33)) ≠ 2 ^ 33 * 2 ^ 30
  ∧ ∀ st filename f,
      os.files st !! filename = Some f → quiet (os.faults st) 2 →
      0 ≤ os.size f →
      (MemoryMapFile (setMaxFileSize initial (2 ^ 33)) st filename).2 =
        Err (tooLarge (- 2 ^ 63)).
Proof.
  assert (maxFileSize (setMaxFileSize initial (2 ^ 33)) = - 2 ^ 63) as Hwrap
    by reflexivity.
  split; [done|]. split; [done|]. split; [by rewrite Hwrap|].
  intros st filename f Hfile Hq Hsize.
  rewrite (MemoryMapFile_after_stat _ st filename f Hfile Hq), Hwrap.
  by rewrite decide_True by lia.
Qed.

(** * Further properties *)

(** ** Hash tree: shape, size and what the root digest binds *)

Module HashTreeShape.
Import HashTree HashTreeFacts.
Section Shape.

Variable Sum256 : bytes → bytes.

Abbreviation computeHash := (computeHash Sum256).
Abbreviation leafNode := (leafNode Sum256).
Abbreviation parentNode := (parentNode Sum256).
Abbreviation nextLevel := (nextLevel Sum256).
Abbreviation reduceLevels := (reduceLevels Sum256).
Abbreviation BuildHashTree := (BuildHashTree Sum256).

(** A property of trees that holds of every hashed leaf and passes
    from two trees to their parent holds of the tree built. *)
Lemma BuildHashTree_root_ind (P : HashTreeNode → Prop) leaves root :
  (∀ leaf, P (leafNode leaf)) →
  (∀ a b, P a → P b → P (parentNode a b)) →
  BuildHashTree leaves = Some root → P root.
Proof.
  intros Hleaf Hparent Hbuild.
  assert (Forall P (reduceLevels (leafNode <$> leaves))) as Hall.
  { apply (reduceLevels_invariant Sum256 (Forall P)).
    - intros nodes.
      induction nodes as [|a|a b rest IH] using pairwise_ind; simpl; [done..|].
      intros Hab. apply Forall_cons in Hab as [Ha Hab].
      apply Forall_cons in Hab as [Hb Hrest].
      apply Forall_cons. split; [by apply Hparent | by apply IH].
    - apply Forall_fmap, Forall_forall. intros leaf _. apply Hleaf. }
  unfold HashTree.BuildHashTree in Hbuild.
  rewrite Forall_forall in Hall. apply Hall.
  apply list_elem_of_lookup. by exists 0%nat.
Qed.

Lemma BuildHashTree_fringe leaves root :
  BuildHashTree leaves = Some root → fringe root = leafNode <$> leaves.
Proof.
  intros Hbuild.
  assert (leaves ≠ []) as Hne.
  { intros ->. unfold HashTree.BuildHashTree in Hbuild.
    cbn [fmap list_fmap] in Hbuild.
    by rewrite reduceLevels_done in Hbuild by (simpl; lia). }
  destruct (BuildHashTree_returns Sum256 leaves Hne) as (root' & Hloop & Hsome).
  assert (root' = root) as -> by congruence.
  pose proof (reduceLevels_invariant Sum256
    (λ nodes, concat (fringe <$> nodes) = leafNode <$> leaves)) as Hinv.
  specialize (Hinv (λ nodes Hf, eq_trans (nextLevel_fringe Sum256 nodes) Hf)
                   (leafNode <$> leaves) (leaves_fringe Sum256 leaves)).
  cbv beta in Hinv. rewrite Hloop in Hinv. simpl in Hinv.
  by rewrite (right_id_L [] (++)) in Hinv.
Qed.

Lemma nextLevel_length nodes :
  length (nextLevel nodes) = ((length nodes + 1) `div` 2)%nat.
Proof.
  induction nodes as [|a|a b rest IH] using pairwise_ind; [done..|].
  cbn [HashTree.nextLevel length]. rewrite IH.
  replace (S (S (length rest)) + 1)%nat with ((length rest + 1) + 1 * 2)%nat by lia.
  rewrite Nat.div_add by lia. lia.
Qed.

(** X1: a single leaf is its own tree: the root is the node of that
    leaf, with the hash of the leaf as digest and no children; the leaf
    digest is not hashed a second time. *)
Theorem build_single_leaf (A : bytes) :
  BuildHashTree [A] =
    Some {| Hash := computeHash A; Left := None; Right := None |}.
Proof.
  unfold HashTree.BuildHashTree. cbn [fmap list_fmap].
  by rewrite reduceLevels_done by (simpl; lia).
Qed.

(** X2: one round of pairing, by index.  A level of [n] nodes gives a
    level of (n+1)/2 nodes: node [i] of the new level is the parent of
    the nodes [2i] and [2i+1] of the old one, or, when [2i] is the last
    index, the old node [2i] itself. *)
Theorem next_level_by_index (nodes : list HashTreeNode) :
  length (nextLevel nodes) = ((length nodes + 1) `div` 2)%nat
  ∧ (∀ (i : nat) a b,
       nodes !! (2 * i)%nat = Some a → nodes !! (2 * i + 1)%nat = Some b →
       nextLevel nodes !! i = Some (parentNode a b))
  ∧ (∀ (i : nat) a,
       nodes !! (2 * i)%nat = Some a → nodes !! (2 * i + 1)%nat = None →
       nextLevel nodes !! i = Some a).
Proof.
  split; [apply nextLevel_length|].
  induction nodes as [|c|c d rest [IHpair IHlast]] using pairwise_ind.
  - split; intros; simplify_eq/=.
  - split.
    + intros i a b Ha Hb. destruct i; simplify_eq/=.
    + intros i a Ha _. destruct i; by simplify_eq/=.
  - split.
    + intros [|i] a b Ha Hb.
      * by simplify_eq/=.
      * replace (2 * S i)%nat with (S (S (2 * i))) in Ha by lia.
        replace (2 * S i + 1)%nat with (S (S (2 * i + 1))) in Hb by lia.
        simpl in *. by apply IHpair.
    + intros [|i] a Ha Hb.
      * by simplify_eq/=.
      * replace (2 * S i)%nat with (S (S (2 * i))) in Ha by lia.
        replace (2 * S i + 1)%nat with (S (S (2 * i + 1))) in Hb by lia.
        simpl in *. by apply IHlast.
Qed.

(** X3: the tree over [n] leaves has [n] childless nodes and [n - 1]
    parents, [2n - 1] nodes in all: the loop creates one parent per
    pair and no node for a carried one. *)
Theorem build_node_count (leaves : list bytes) (root : HashTreeNode) :
  BuildHashTree leaves = Some root →
  length (fringe root) = length leaves
  ∧ (length (nodesOf root) + 1 = 2 * length leaves)%nat.
Proof.
  intros Hbuild.
  assert (length (fringe root) = length leaves) as Hfringe.
  { by rewrite (BuildHashTree_fringe leaves root Hbuild), length_fmap. }
  split; [done|]. rewrite <- Hfringe.
  apply (BuildHashTree_root_ind
           (λ t, (length (nodesOf t) + 1 = 2 * length (fringe t))%nat)
           leaves root); [done | | done].
  intros a b Ha Hb. cbn [nodesOf HashTree.parentNode fringe length].
  rewrite !length_app. lia.
Qed.

(** X4: with a digest function of 32-byte output, such as SHA-256,
    every node of the tree built carries a 32-byte digest, the root
    included. *)
Theorem build_digest_size (leaves : list bytes) (root : HashTreeNode) :
  (∀ data, length (Sum256 data) = 32%nat) →
  BuildHashTree leaves = Some root →
  ∀ n, n ∈ nodesOf root → length (Hash n) = 32%nat.
Proof.
  intros Hsize Hbuild.
  apply (BuildHashTree_root_ind
           (λ t, ∀ n, n ∈ nodesOf t → length (Hash n) = 32%nat) leaves root);
    [| | done].
  - intros leaf n Hn. simpl in Hn. apply list_elem_of_singleton in Hn as ->.
    apply Hsize.
  - intros a b Ha Hb n Hn. simpl in Hn.
    apply elem_of_cons in Hn as [-> | Hn]; [apply Hsize|].
    apply elem_of_app in Hn as [Hn | Hn]; [by apply Ha | by apply Hb].
Qed.

(** X5: leaves and parents are hashed alike, so the root digest does
    not tell a pair of leaves from the single leaf made of their two
    digests joined: both trees have the same root digest. *)
Theorem build_leaf_parent_confusion (A B : bytes) :
  ∃ pair single,
    BuildHashTree [A; B] = Some pair
    ∧ BuildHashTree [computeHash A ++ computeHash B] = Some single
    ∧ Hash pair = Hash single
    ∧ length (fringe pair) = 2%nat ∧ length (fringe single) = 1%nat.
Proof.
  exists (parentNode (leafNode A) (leafNode B)),
         (leafNode (computeHash A ++ computeHash B)).
  split; [|split; [|done]].
  - unfold HashTree.BuildHashTree. cbn [fmap list_fmap].
    rewrite reduceLevels_step by (simpl; lia). cbn [HashTree.nextLevel].
    by rewrite reduceLevels_done by (simpl; lia).
  - unfold HashTree.BuildHashTree. cbn [fmap list_fmap].
    by rewrite reduceLevels_done by (simpl; lia).
Qed.

(** Two different inputs with the same digest. *)
Definition collides : Prop := ∃ x y : bytes, x ≠ y ∧ Sum256 x = Sum256 y.

Definition sized (n : HashTreeNode) : Prop := length (Hash n) = 32%nat.

Lemma same_digest_cases (x y : bytes) :
  Sum256 x = Sum256 y → x = y ∨ collides.
Proof.
  intros Heq.
  pose (Byte.byte_eq_dec : EqDecision Byte.byte) as Hdec.
  destruct (decide (x = y)) as [Hxy|Hxy]; [by left | right; by exists x, y].
Qed.

Lemma sized_nextLevel nodes :
  (∀ data, length (Sum256 data) = 32%nat) →
  Forall sized nodes → Forall sized (nextLevel nodes).
Proof.
  intros Hsize.
  induction nodes as [|a|a b rest IH] using pairwise_ind; simpl; [done..|].
  intros Hall. apply Forall_cons in Hall as [_ Hall].
  apply Forall_cons in Hall as [_ Hrest].
  apply Forall_cons. split; [apply Hsize | by apply IH].
Qed.

(** Equal digests on the next level come from equal digests on this
    one, or from a collision. *)
Lemma level_digests nodes : ∀ nodes',
  Forall sized nodes → Forall sized nodes' →
  length nodes = length nodes' →
  Hash <$> nextLevel nodes = Hash <$> nextLevel nodes' →
  Hash <$> nodes = Hash <$> nodes' ∨ collides.
Proof.
  induction nodes as [|a|a b rest IH] using pairwise_ind;
    intros nodes' Hs Hs' Hlen Hnext.
  - destruct nodes'; [by left | done].
  - destruct nodes' as [|a' [|? ?]]; [done | by left | done].
  - destruct nodes' as [|a' [|b' rest']]; [done..|].
    apply Forall_cons in Hs as [Ha Hs]. apply Forall_cons in Hs as [Hb Hs].
    apply Forall_cons in Hs' as [Ha' Hs']. apply Forall_cons in Hs' as [Hb' Hs'].
    cbn [HashTree.nextLevel fmap list_fmap HashTree.parentNode Hash] in Hnext.
    injection Hnext as Hparent Hrest.
    destruct (IH rest' Hs Hs') as [Htail|Hcol];
      [simpl in Hlen; lia | done | | by right].
    destruct (same_digest_cases _ _ Hparent) as [Hjoin|Hcol]; [|by right].
    apply app_inj_1 in Hjoin as [Hl Hr]; [|unfold sized in *; congruence].
    left. cbn [fmap list_fmap]. by rewrite Hl, Hr, Htail.
Qed.

Lemma loop_digests nodes : ∀ nodes',
  (∀ data, length (Sum256 data) = 32%nat) →
  Forall sized nodes → Forall sized nodes' →
  length nodes = length nodes' →
  Hash <$> reduceLevels nodes = Hash <$> reduceLevels nodes' →
  Hash <$> nodes = Hash <$> nodes' ∨ collides.
Proof.
  induction nodes as [nodes IH] using (induction_ltof1 _ length).
  unfold ltof in IH. intros nodes' Hsize Hs Hs' Hlen Hloop.
  destruct (decide (1 < length nodes)%nat) as [Hmore|Hdone].
  - rewrite reduceLevels_step in Hloop by done.
    rewrite (reduceLevels_step Sum256 nodes') in Hloop by lia.
    destruct (IH (nextLevel nodes)) with (nodes' := nextLevel nodes')
      as [Hnext|Hcol]; [| done | | | | done | |].
    + by apply nextLevel_shrinks.
    + by apply sized_nextLevel.
    + by apply sized_nextLevel.
    + rewrite !nextLevel_length. by rewrite Hlen.
    + by apply level_digests.
    + by right.
  - rewrite reduceLevels_done in Hloop by done.
    rewrite (reduceLevels_done Sum256 nodes') in Hloop by lia.
    by left.
Qed.

Lemma leaf_digests (leaves : list bytes) : ∀ leaves' : list bytes,
  Hash <$> (leafNode <$> leaves) = Hash <$> (leafNode <$> leaves') →
  leaves = leaves' ∨ collides.
Proof.
  induction leaves as [|leaf rest IH]; intros [|leaf' rest'] Heq;
    [by left | done | done |].
  cbn [fmap list_fmap HashTree.leafNode Hash] in Heq.
  injection Heq as Hhead Htail.
  destruct (IH rest' Htail) as [->|Hcol]; [|by right].
  destruct (same_digest_cases _ _ Hhead) as [->|Hcol]; [by left | by right].
Qed.

(** X6: the root digest binds the leaves up to collisions.  With a
    digest function of 32-byte output, two different leaf sequences of
    the same length whose trees have the same root digest exhibit two
    different inputs with the same digest. *)
Theorem same_root_needs_collision
  (leaves leaves' : list bytes) (root root' : HashTreeNode) :
  (∀ data, length (Sum256 data) = 32%nat) →
  length leaves = length leaves' →
  leaves ≠ leaves' →
  BuildHashTree leaves = Some root →
  BuildHashTree leaves' = Some root' →
  Hash root = Hash root' →
  ∃ x y : bytes, x ≠ y ∧ Sum256 x = Sum256 y.
Proof.
  intros Hsize Hlen Hdiff Hbuild Hbuild' Hroot.
  assert (∀ ls r, BuildHashTree ls = Some r →
            reduceLevels (leafNode <$> ls) = [r]) as Hsingle.
  { intros ls r Hb.
    destruct (reduceLevels_singleton Sum256 (leafNode <$> ls)) as [r0 Hr0].
    - intros Hnil. apply fmap_nil_inv in Hnil as ->.
      unfold HashTree.BuildHashTree in Hb. cbn [fmap list_fmap] in Hb.
      by rewrite reduceLevels_done in Hb by (simpl; lia).
    - unfold HashTree.BuildHashTree in Hb. rewrite Hr0 in Hb.
      by injection Hb as ->. }
  assert (∀ ls, Forall sized (leafNode <$> ls)) as Hleaves.
  { intros ls. apply Forall_fmap, Forall_forall. intros leaf _. apply Hsize. }
  destruct (loop_digests (leafNode <$> leaves) (leafNode <$> leaves'))
    as [Hdigests|Hcol]; [done | done | done | | | | done].
  - by rewrite !length_fmap.
  - rewrite (Hsingle _ _ Hbuild), (Hsingle _ _ Hbuild'). simpl. by rewrite Hroot.
  - destruct (leaf_digests _ _ Hdigests) as [Heq|Hcol]; done.
Qed.

Lemma nextLevel_perfect (h : nat) nodes :
  Nat.Even (length nodes) →
  Forall (perfect h) nodes → Forall (perfect (S h)) (nextLevel nodes).
Proof.
  induction nodes as [|a|a b rest IH] using pairwise_ind; [done | |].
  - intros [m Hm]. simpl in Hm. lia.
  - intros [m Hm] Hall. apply Forall_cons in Hall as [Ha Hall].
    apply Forall_cons in Hall as [Hb Hrest].
    cbn [HashTree.nextLevel]. apply Forall_cons. split.
    + by exists a, b.
    + apply IH; [|done]. exists (m - 1)%nat. simpl in Hm. lia.
Qed.

Lemma reduceLevels_perfect (k : nat) : ∀ (h : nat) nodes,
  length nodes = (2 ^ k)%nat →
  Forall (perfect h) nodes →
  ∃ root, reduceLevels nodes = [root] ∧ perfect (h + k) root.
Proof.
  induction k as [|k IH]; intros h nodes Hlen Hall.
  - destruct nodes as [|root [|? ?]]; [done | | done].
    exists root. rewrite reduceLevels_done by (simpl; lia).
    split; [done|]. rewrite Nat.add_0_r. rewrite Forall_singleton in Hall.
    exact Hall.
  - assert (0 < 2 ^ k)%nat as Hpos by (apply Nat.neq_0_lt_0, Nat.pow_nonzero; lia).
    rewrite Nat.pow_succ_r' in Hlen.
    rewrite reduceLevels_step by lia.
    destruct (IH (S h) (nextLevel nodes)) as (root & Hroot & Hperfect).
    + rewrite nextLevel_length, Hlen.
      replace (2 * 2 ^ k + 1)%nat with (1 + 2 ^ k * 2)%nat by lia.
      rewrite Nat.div_add by lia. done.
    + apply nextLevel_perfect; [|done]. exists (2 ^ k)%nat. lia.
    + exists root. split; [done|].
      by replace (h + S k)%nat with (S h + k)%nat by lia.
Qed.

(** X21: a leaf count that is a power of two gives a perfect tree.
    For 2^k leaves there is no carried node on any level, and all
    hashed leaves sit exactly [k] steps below the root. *)
Theorem build_power_of_two_perfect (leaves : list bytes) (k : nat) :
  length leaves = (2 ^ k)%nat →
  ∃ root, BuildHashTree leaves = Some root ∧ perfect k root.
Proof.
  intros Hlen.
  destruct (reduceLevels_perfect k 0 (leafNode <$> leaves))
    as (root & Hroot & Hperfect).
  - by rewrite length_fmap.
  - apply Forall_fmap, Forall_forall. by intros leaf _.
  - exists root. split; [|done].
    unfold HashTree.BuildHashTree. by rewrite Hroot.
Qed.

End Shape.
End HashTreeShape.

(** ** Leaf store: keys and how the operations compose *)

Module LeafStoreCompose.
Import leveldb LeafStoreFacts.

(** X7: different indices give different keys, so no leaf is stored
    over another leaf of the same call. *)
Theorem leaf_keys_distinct (i j : Z) : i ≠ j → leafKey i ≠ leafKey j.
Proof. intros Hij Heq. by apply Hij, leafKey_inj. Qed.

Lemma Get_quiet db key :
  nextFault (faults db) = None →
  (Get db key).2 =
    match data db !! key with Some value => Ok value | None => Err ErrNotFound end.
Proof. intros Hq. unfold Get. rewrite Hq. by destruct (data db !! key). Qed.

(** X8: storing and reading back.  After a [SaveLeavesToDB] in which
    no put fails, a fetch that does not fail itself returns leaf [j]
    for the key of every index [j] of the sequence, and for every other
    key what the store held before the save: not-found when it held
    nothing. *)
Theorem save_then_fetch (db : DB) (leaves : list bytes) :
  quiet (faults db) (S (length leaves)) →
  ∃ db', SaveLeavesToDB db leaves = (db', None)
    ∧ (∀ (j : nat) leaf, leaves !! j = Some leaf →
         (FetchLeafFromDB db' (leafKey (Z.of_nat j))).2 = Ok leaf)
    ∧ (∀ key, (∀ j : nat, (j < length leaves)%nat → key ≠ leafKey (Z.of_nat j)) →
         (FetchLeafFromDB db' key).2 =
           match data db !! key with
           | Some value => Ok value
           | None => Err ErrNotFound
           end).
Proof.
  intros Hq. eexists. unfold SaveLeavesToDB.
  split; [apply saveLeavesFrom_quiet; by eapply quiet_le, Hq; lia|].
  assert (nextFault (drop (length leaves) (faults db)) = None) as Hget.
  { rewrite <- faultAt_0, faultAt_drop. rewrite Nat.add_0_r.
    replace (S (length leaves)) with (length leaves + 1)%nat in Hq by lia.
    apply quiet_drop, quiet_S in Hq as [Hq _].
    by rewrite <- faultAt_0, faultAt_drop, Nat.add_0_r in Hq. }
  unfold FetchLeafFromDB. split.
  - intros j leaf Hj. rewrite Get_quiet by done. cbn [data].
    by rewrite (storeAll_stored 0 _ _ j leaf).
  - intros key Hkey. rewrite Get_quiet by done. cbn [data].
    by rewrite storeAll_other.
Qed.

(** X9: when the store does not fail, the batch variant and the loop
    leave the same contents; they differ in the calls made, one
    [Write] against one [Put] per leaf.  The batch variant calls the
    store even for an empty sequence. *)
Theorem batch_agrees_with_loop (db : DB) (leaves : list bytes) :
  quiet (faults db) (S (length leaves)) →
  ∃ looped batched,
    SaveLeavesToDB db leaves = (looped, None)
    ∧ SaveLeavesBatchToDB db leaves = (batched, None)
    ∧ data batched = data looped
    ∧ length (calls looped) = (length (calls db) + length leaves)%nat
    ∧ length (calls batched) = (length (calls db) + 1)%nat.
Proof.
  intros Hq. do 2 eexists. unfold SaveLeavesToDB, SaveLeavesBatchToDB.
  split; [apply saveLeavesFrom_quiet; by eapply quiet_le, Hq; lia|].
  apply quiet_S in Hq as [Hnow _]. unfold Write. rewrite Hnow.
  split; [done|]. cbn [after data calls]. split; [|split].
  - rewrite stageLeavesFrom_app. cbn [app]. apply applyRecords_storeAll.
  - rewrite length_app, putCalls_imap, length_imap. done.
  - by rewrite length_app.
Qed.

(** X10: storing and pruning.  After a save of [n] leaves, pruning [k]
    of them, with no failure of the store, removes the keys of the
    indices below [k] and nothing else: the leaves from index [k] on
    are still there under their keys.  Pruning all [n] gives back the
    store as it was before the save when it held none of these keys. *)
Theorem save_then_prune (db : DB) (leaves : list bytes) (k : nat) :
  (k ≤ length leaves)%nat →
  quiet (faults db) (length leaves + k) →
  ∃ saved pruned,
    SaveLeavesToDB db leaves = (saved, None)
    ∧ PruneOldLeaves saved (Z.of_nat k) = (pruned, None)
    ∧ (∀ j : nat, (j < k)%nat → data pruned !! leafKey (Z.of_nat j) = None)
    ∧ (∀ (j : nat) leaf, (k ≤ j)%nat → leaves !! j = Some leaf →
         data pruned !! leafKey (Z.of_nat j) = Some leaf)
    ∧ (∀ key, (∀ j : nat, (j < length leaves)%nat → key ≠ leafKey (Z.of_nat j)) →
         data pruned !! key = data db !! key)
    ∧ (k = length leaves →
       (∀ j : nat, (j < length leaves)%nat →
          data db !! leafKey (Z.of_nat j) = None) →
       data pruned = data db).
Proof.
  intros Hk Hq. do 2 eexists. unfold SaveLeavesToDB, PruneOldLeaves.
  split; [apply saveLeavesFrom_quiet; by eapply quiet_le, Hq; lia|].
  split.
  { apply pruneFrom_quiet. cbn [faults]. rewrite Nat2Z.id. by apply quiet_drop. }
  cbn [data]. rewrite Nat2Z.id.
  assert (∀ j : nat, (j < k)%nat →
            deleteAll 0 k (storeAll 0 (data db) leaves) !! leafKey (Z.of_nat j)
            = None) as Hgone.
  { intros j Hj. by apply (deleteAll_deleted 0). }
  assert (∀ key, (∀ j : nat, (j < length leaves)%nat → key ≠ leafKey (Z.of_nat j)) →
            deleteAll 0 k (storeAll 0 (data db) leaves) !! key = data db !! key)
    as Hother.
  { intros key Hkey. rewrite deleteAll_other.
    - by apply storeAll_other.
    - intros j Hj. apply Hkey. lia. }
  split; [done|]. split; [|split; [done|]].
  - intros j leaf Hj Hleaf. rewrite deleteAll_other.
    + by apply (storeAll_stored 0).
    + intros i Hi Heq. apply leafKey_inj in Heq. lia.
  - intros -> Habsent. apply map_eq. intros key.
    destruct (decide (key ∈ (λ j : nat, leafKey (Z.of_nat j))
                             <$> seq 0 (length leaves))) as [Hin|Hnot].
    + apply list_elem_of_fmap in Hin as (j & -> & Hj).
      apply elem_of_seq in Hj. by rewrite Hgone, Habsent by lia.
    + apply Hother. intros j Hj Heq. apply Hnot.
      apply list_elem_of_fmap. exists j. split; [done|].
      apply elem_of_seq. lia.
Qed.

End LeafStoreCompose.

(** ** Root persistence and the tree *)

(** X11: a second save to the same name replaces the first digest, it
    does not append to it, and no other file is touched by either
    save. *)
Theorem root_file_overwrite
  (fs fs1 fs2 : ioutil.fsys) (first second : HashTreeNode) (filename : string) :
  SaveRootHashToFile fs first filename = (fs1, None) →
  SaveRootHashToFile fs1 second filename = (fs2, None) →
  ioutil.files fs2 !! filename = Some (Hash second)
  ∧ ∀ other, other ≠ filename →
      ioutil.files fs2 !! other = ioutil.files fs !! other.
Proof.
  unfold SaveRootHashToFile, ioutil.WriteFile.
  destruct (nextFault (ioutil.faults fs)); [done|]. intros [= <-].
  cbn [ioutil.faults ioutil.files].
  destruct (nextFault (tail (ioutil.faults fs))); [done|]. intros [= <-].
  cbn [ioutil.files]. split; [apply lookup_insert_eq|].
  intros other Hother. by rewrite !lookup_insert_ne.
Qed.

(** X12: building, saving and loading.  For a non-empty leaf sequence
    and a digest function of 32-byte output, when neither file call
    fails the root of the tree is saved as a file of exactly 32 bytes
    and loading it returns the root digest. *)
Theorem build_save_load
  (Sum256 : bytes → bytes) (leaves : list bytes) (fs : ioutil.fsys)
  (filename : string) :
  (∀ data, length (Sum256 data) = 32%nat) →
  leaves ≠ [] →
  quiet (ioutil.faults fs) 2 →
  ∃ root fs1 fs2 stored,
    HashTree.BuildHashTree Sum256 leaves = Some root
    ∧ SaveRootHashToFile fs root filename = (fs1, None)
    ∧ ioutil.files fs1 !! filename = Some stored
    ∧ length stored = 32%nat
    ∧ LoadRootHashFromFile fs1 filename = (fs2, Ok (Hash root)).
Proof.
  intros Hsize Hne Hq.
  destruct (HashTreeFacts.BuildHashTree_returns Sum256 leaves Hne)
    as (root & _ & Hbuild).
  apply quiet_S in Hq as [Hwrite Hq]. apply quiet_S in Hq as [Hread _].
  exists root. do 2 eexists. exists (Hash root).
  split; [done|].
  unfold SaveRootHashToFile, LoadRootHashFromFile, ioutil.WriteFile, ioutil.ReadFile.
  rewrite Hwrite. split; [done|]. cbn [ioutil.files ioutil.faults].
  rewrite Hread, lookup_insert_eq. split; [done|]. split; [|done].
  apply (HashTreeShape.BuildHashTree_root_ind Sum256
           (λ t, length (Hash t) = 32%nat) leaves root); [| |done].
  - intros leaf. apply Hsize.
  - intros a b _ _. apply Hsize.
Qed.

(** ** Mapped file guard: descriptors, mappings, empty files *)

Lemma MemoryMapFile_open_failed (g : globals) (st : os.state) filename :
  nextFault (os.faults st) ≠ None ∨ os.files st !! filename = None →
  ∃ err,
    MemoryMapFile g st filename =
      ({| os.files := os.files st; os.faults := tail (os.faults st);
          os.mappings := os.mappings st;
          os.trace := os.trace st ++ [os.SysOpen filename] |},
       Err (ErrWrap "error opening file" err)).
Proof.
  intros Hfail. unfold MemoryMapFile, os.Open.
  destruct (nextFault (os.faults st)) as [reason|]; [by eexists|].
  destruct Hfail as [Hfault|Hfile]; [done|]. rewrite Hfile. by eexists.
Qed.

(** X14: the file is closed on every path that opened it.  When the
    open call fails, nothing else is called.  When it succeeds, the
    system calls of [MemoryMapFile] are the open, the stat, at most one
    mmap, and the close of the file as the last call, whatever the
    outcome. *)
Theorem map_file_closes_what_it_opens
  (g : globals) (st : os.state) (filename : string) :
  match nextFault (os.faults st), os.files st !! filename with
  | None, Some f =>
      ∃ middle,
        os.trace (MemoryMapFile g st filename).1 =
          os.trace st ++ [os.SysOpen filename] ++ middle
                      ++ [os.SysClose filename]
        ∧ (middle = [os.SysStat filename]
           ∨ middle = [os.SysStat filename; os.SysMmap filename 0 (os.size f)])
  | _, _ =>
      os.trace (MemoryMapFile g st filename).1 =
        os.trace st ++ [os.SysOpen filename]
      ∧ ∃ err, (MemoryMapFile g st filename).2 =
                 Err (ErrWrap "error opening file" err)
  end.
Proof.
  destruct (nextFault (os.faults st)) as [reason|] eqn:Hopen.
  { destruct (MemoryMapFile_open_failed g st filename) as [err ->];
      [left; congruence | split; [done | by eexists]]. }
  destruct (os.files st !! filename) as [f|] eqn:Hfile.
  2: { destruct (MemoryMapFile_open_failed g st filename) as [err ->];
         [by right | split; [done | by eexists]]. }
  unfold MemoryMapFile, os.Open. rewrite Hopen, Hfile.
  unfold os.Stat. cbn [os.faults os.files os.mappings os.trace os.name os.opened].
  destruct (nextFault (tail (os.faults st))) as [reason|].
  { exists [os.SysStat filename]. cbn [fst os.Close os.trace os.name].
    split; [by rewrite <- !(assoc_L (++)) | by left]. }
  destruct (decide (os.size f > maxFileSize g)).
  { exists [os.SysStat filename]. cbn [fst os.Close os.trace os.name].
    split; [by rewrite <- !(assoc_L (++)) | by left]. }
  exists [os.SysStat filename; os.SysMmap filename 0 (os.size f)].
  split; [|by right]. unfold os.Mmap.
  cbn [os.faults os.files os.mappings os.trace os.name os.opened].
  destruct (decide (os.size f ≤ 0));
    [|destruct (nextFault (tail (tail (os.faults st))))];
    cbn [fst os.Close os.trace os.name]; by rewrite <- !(assoc_L (++)).
Qed.

(** X15: a mapping exists afterwards exactly when a view is returned.
    A returned view covers a whole file of the given name, of a size
    that is positive and within the ceiling, byte for byte, and one
    mapping of that size is added; every error leaves the mappings as
    they were.  The files are never changed. *)
Theorem map_file_maps_only_on_success
  (g : globals) (st : os.state) (filename : string) :
  os.files (MemoryMapFile g st filename).1 = os.files st
  ∧ match (MemoryMapFile g st filename).2 with
    | Ok data =>
        ∃ f, os.files st !! filename = Some f
          ∧ os.len data = os.size f
          ∧ 0 < os.size f ≤ maxFileSize g
          ∧ (∀ i, os.at_ data i = os.byteAt f i)
          ∧ os.mappings (MemoryMapFile g st filename).1 =
              os.mappings st ++ [(filename, os.size f)]
    | Err _ =>
        os.mappings (MemoryMapFile g st filename).1 = os.mappings st
    end.
Proof.
  unfold MemoryMapFile, os.Open.
  destruct (nextFault (os.faults st)); [done|].
  destruct (os.files st !! filename) as [f|] eqn:Hfile; [|done].
  unfold os.Stat. cbn [os.faults os.files os.mappings os.trace os.name os.opened].
  destruct (nextFault (tail (os.faults st))); [done|].
  destruct (decide (os.size f > maxFileSize g)); [done|].
  unfold os.Mmap.
  cbn [os.faults os.files os.mappings os.trace os.name os.opened].
  destruct (decide (os.size f ≤ 0)); [done|].
  destruct (nextFault (tail (tail (os.faults st)))); [done|].
  cbn [fst snd os.Close os.files os.mappings]. split; [done|].
  exists f. repeat split; (done || lia).
Qed.

(** X16: an empty file is not mapped.  It passes the ceiling check of
    any ceiling that is not negative, and the mmap call refuses the
    length 0: the caller gets a mapping error, not a capacity error,
    and no mapping. *)
Theorem map_file_empty_file
  (g : globals) (st : os.state) (filename : string) (f : os.file) :
  os.files st !! filename = Some f →
  quiet (os.faults st) 2 →
  os.size f = 0 →
  0 ≤ maxFileSize g →
  (MemoryMapFile g st filename).2 =
    Err (ErrWrap "error mapping file" (ErrIO "invalid argument"))
  ∧ os.mappings (MemoryMapFile g st filename).1 = os.mappings st.
Proof.
  intros Hfile Hq Hsize Hceiling.
  rewrite (MemoryMapFile_after_stat g st filename f Hfile Hq).
  rewrite decide_False by lia. unfold os.Mmap.
  by rewrite decide_True by lia.
Qed.

(** X20: the ceiling that [setMaxFileSize] sets is the one that
    [MemoryMapFile] enforces afterwards.  A file larger than the old
    ceiling and within [n] GiB is refused before [setMaxFileSize n] and
    mapped after it; after a call with an argument that is not
    positive it is refused as before. *)
Theorem ceiling_change_takes_effect
  (g : globals) (n : Z) (st : os.state) (filename : string) (f : os.file) :
  os.files st !! filename = Some f →
  quiet (os.faults st) 3 →
  0 < n < 2 ^ 33 →
  maxFileSize g < os.size f ≤ n * 2 ^ 30 →
  0 < os.size f →
  (MemoryMapFile g st filename).2 = Err (tooLarge (maxFileSize g))
  ∧ (MemoryMapFile (setMaxFileSize g n) st filename).2 =
      Ok {| os.len := os.size f; os.at_ := λ i, os.byteAt f (0 + i) |}
  ∧ (MemoryMapFile (setMaxFileSize g 0) st filename).2 =
      Err (tooLarge (maxFileSize g)).
Proof.
  intros Hfile Hq Hn Hsize Hpos.
  assert (quiet (os.faults st) 2) as Hq2 by (by eapply quiet_le, Hq; lia).
  assert (faultAt (os.faults st) 2 = None) as Hmmap.
  { replace 3%nat with (2 + 1)%nat in Hq by lia.
    apply quiet_drop, quiet_S in Hq as [Hq _].
    by rewrite <- faultAt_0, faultAt_drop, Nat.add_0_r in Hq. }
  assert (maxFileSize (setMaxFileSize g n) = n * 2 ^ 30) as Hset.
  { unfold setMaxFileSize. rewrite decide_False by lia. cbn [maxFileSize].
    unfold int_mul. change (1 ≪ 30) with (2 ^ 30). apply wrap_int_small. lia. }
  split; [|split].
  - rewrite (MemoryMapFile_after_stat g st filename f Hfile Hq2).
    by rewrite decide_True by lia.
  - by rewrite (MemoryMapFile_mapped _ st filename f) by (done || lia).
  - rewrite (MemoryMapFile_after_stat _ st filename f Hfile Hq2).
    unfold setMaxFileSize. rewrite (decide_True (P := 0 ≤ 0)) by lia.
    cbn [maxFileSize]. by rewrite decide_True by lia.
Qed.

(** ** The SWIFFTX binding *)

Module SwifftxFacts.
Import swifftx.

Lemma store_inside (buf : cbuffer) (offset : nat) (b : Byte.byte) :
  (offset < length (cells buf))%nat →
  store buf offset b =
    {| cells := <[offset := b]> (cells buf); beyond := beyond buf |}.
Proof.
  intros Hin. unfold store. by rewrite (proj2 (Nat.ltb_lt _ _)) by done.
Qed.

Lemma store_outside (buf : cbuffer) (offset : nat) (b : Byte.byte) :
  (length (cells buf) ≤ offset)%nat →
  store buf offset b =
    {| cells := cells buf; beyond := beyond buf ++ [(offset, b)] |}.
Proof.
  intros Hout. unfold store. by rewrite (proj2 (Nat.ltb_ge _ _)) by done.
Qed.

(** A [sprintf] with room for its terminator, and one without. *)
Lemma sprintf_inside (done rest : bytes) (z1 z2 z3 v : Byte.byte) :
  sprintf_02X {| cells := done ++ z1 :: z2 :: z3 :: rest; beyond := [] |}
              (length done) v =
    {| cells := done ++ (hex2 v).1 :: (hex2 v).2 :: Byte.x00 :: rest;
       beyond := [] |}.
Proof.
  unfold sprintf_02X.
  rewrite (store_inside _ (length done)) by (cbn; rewrite length_app; simpl; lia).
  rewrite (store_inside _ (length done + 1))
    by (cbn; rewrite length_insert, length_app; simpl; lia).
  rewrite (store_inside _ (length done + 2))
    by (cbn; rewrite !length_insert, length_app; simpl; lia).
  cbn [cells beyond]. f_equal.
  rewrite !insert_app_r_alt by (rewrite ?length_insert, ?length_app; lia).
  rewrite Nat.sub_diag.
  replace (length done + 1 - length done)%nat with 1%nat by lia.
  replace (length done + 2 - length done)%nat with 2%nat by lia.
  done.
Qed.

Lemma sprintf_last (done : bytes) (z1 z2 v : Byte.byte) :
  sprintf_02X {| cells := done ++ [z1; z2]; beyond := [] |} (length done) v =
    {| cells := done ++ [(hex2 v).1; (hex2 v).2];
       beyond := [((length done + 2)%nat, Byte.x00)] |}.
Proof.
  unfold sprintf_02X.
  rewrite (store_inside _ (length done)) by (cbn; rewrite length_app; simpl; lia).
  rewrite (store_inside _ (length done + 1))
    by (cbn; rewrite length_insert, length_app; simpl; lia).
  rewrite (store_outside _ (length done + 2))
    by (cbn; rewrite !length_insert, length_app; simpl; lia).
  cbn [cells beyond app]. f_equal.
  rewrite !insert_app_r_alt by (rewrite ?length_insert, ?length_app; lia).
  rewrite Nat.sub_diag.
  replace (length done + 1 - length done)%nat with 1%nat by lia.
  done.
Qed.

(** The bytes the loop reads from the digest array. *)
Definition reads (digest : bytes) (i todo : nat) : bytes :=
  (λ j, default Byte.x00 (digest !! j)) <$> seq i todo.

Lemma reads_take (digest : bytes) (n : nat) :
  (n ≤ length digest)%nat → reads digest 0 n = take n digest.
Proof.
  intros Hn. unfold reads. apply list_eq. intros j.
  rewrite list_lookup_fmap.
  destruct (decide (j < n)%nat) as [Hj|Hj].
  - rewrite lookup_seq_lt by done. rewrite lookup_take_lt by done. simpl.
    destruct (digest !! j) eqn:Hdj; [done|].
    apply lookup_ge_None in Hdj. lia.
  - rewrite lookup_seq_ge by lia. by rewrite lookup_take_ge by lia.
Qed.

Lemma hexLoop_S (i todo : nat) (digest : bytes) (buf : cbuffer) :
  hexLoop i (S todo) digest buf =
    hexLoop (S i) todo digest
      (sprintf_02X buf (i * 2) (default Byte.x00 (digest !! i))).
Proof. done. Qed.

(** The loop on a buffer whose unwritten part is zero and just long
    enough for the digits: the digits fill it, and the terminator of
    the last round is stored one past the end. *)
Lemma hexLoop_fills (todo : nat) : ∀ (i : nat) (digest done : bytes),
  length done = (i * 2)%nat →
  hexLoop i (S todo) digest
    {| cells := done ++ replicate (S todo * 2) Byte.x00; beyond := [] |} =
    {| cells := done ++ hexUpper (reads digest i (S todo));
       beyond := [(((i + S todo) * 2)%nat, Byte.x00)] |}.
Proof.
  induction todo as [|todo IH]; intros i digest done Hdone.
  - cbn [hexLoop]. rewrite <- Hdone.
    change (replicate (1 * 2) Byte.x00) with [Byte.x00; Byte.x00].
    rewrite sprintf_last. unfold reads, hexUpper.
    cbn [seq fmap list_fmap mbind list_bind app]. do 3 f_equal. lia.
  - rewrite hexLoop_S, <- Hdone.
    change (replicate (S (S todo) * 2) Byte.x00)
      with (Byte.x00 :: Byte.x00 :: Byte.x00 :: replicate (S (todo * 2)) Byte.x00).
    rewrite sprintf_inside.
    change (Byte.x00 :: replicate (S (todo * 2)) Byte.x00)
      with (replicate (S todo * 2) Byte.x00).
    set (h1 := (hex2 (default Byte.x00 (digest !! i))).1).
    set (h2 := (hex2 (default Byte.x00 (digest !! i))).2).
    replace (done ++ h1 :: h2 :: replicate (S todo * 2) Byte.x00)
      with ((done ++ [h1; h2]) ++ replicate (S todo * 2) Byte.x00)
      by (by rewrite <- (assoc_L (++))).
    rewrite IH by (rewrite !length_app; simpl; lia).
    f_equal.
    + unfold reads, hexUpper. cbn [seq fmap list_fmap mbind list_bind].
      by rewrite <- !(assoc_L (++)).
    + do 2 f_equal. lia.
Qed.

Lemma hexUpper_length (data : bytes) :
  length (hexUpper data) = (2 * length data)%nat.
Proof.
  induction data as [|v rest IH]; [done|].
  unfold hexUpper in *. cbn [mbind list_bind length app]. rewrite IH. lia.
Qed.

Section WithLibrary.

Variable SWIFFTX_OUTPUT_BLOCK_SIZE : nat.
Variable libHash : Z → bytes → Z → bytes → Z * bytes.

Abbreviation SWIFFTXHash := (SWIFFTXHash SWIFFTX_OUTPUT_BLOCK_SIZE libHash).



(** The value of the two digits that [hex2] gives. *)
Definition digitValue (c : Byte.byte) : N :=
  let n := Byte.to_N c in
  if (n <? 58)%N then (n - 48)%N else (n - 55)%N.

Lemma hex2_value (v : Byte.byte) :
  (16 * digitValue (hex2 v).1 + digitValue (hex2 v).2)%N = Byte.to_N v.
Proof. by destruct v. Qed.

Lemma hex2_inj (v w : Byte.byte) : hex2 v = hex2 w → v = w.
Proof.
  intros Heq.
  assert (Byte.to_N v = Byte.to_N w) as Hn
    by (by rewrite <- (hex2_value v), <- (hex2_value w), Heq).
  assert (Some v = Some w) as [= ->]; [|done].
  by rewrite <- (Byte.of_to_N v), <- (Byte.of_to_N w), Hn.
Qed.

Lemma hexUpper_inj (d d' : bytes) : hexUpper d = hexUpper d' → d = d'.
Proof.
  revert d'. induction d as [|v rest IH]; intros [|w rest'] Heq; try done.
  unfold hexUpper in Heq. cbn [mbind list_bind app] in Heq.
  injection Heq as H1 H2 Hrest.
  f_equal; [|by apply IH].
  apply hex2_inj. by apply injective_projections.
Qed.


End WithLibrary.
End SwifftxFacts.

(** * The theorems at concrete inputs *)

(** The builder run on three one-byte leaves. *)
Lemma build_internal_nodes_hash_children_witness :
  [[Byte.x61]; [Byte.x62]; [Byte.x63]] ≠ []
  ∧ ∃ root,
      HashTree.BuildHashTree sampleSum256 [[Byte.x61]; [Byte.x62]; [Byte.x63]]
        = Some root
      ∧ (∀ n, n ∈ nodesOf root →
           (Left n = None ∧ Right n = None)
           ∨ (∃ l r, Left n = Some l ∧ Right n = Some r
                     ∧ Hash n = HashTree.computeHash sampleSum256 (Hash l ++ Hash r)))
      ∧ fringe root
          = HashTree.leafNode sampleSum256 <$> [[Byte.x61]; [Byte.x62]; [Byte.x63]].
Proof.
  split; [done|].
  apply (HashTreeFacts.build_internal_nodes_hash_children sampleSum256). done.
Defined.

(** Saving three leaves when the second put fails: the call returns
    that error, the first leaf stays stored and the third is never
    written. *)
Lemma save_leaves_stops_without_rollback_witness :
  ∃ db',
    SaveLeavesToDB
      {| leveldb.data := ∅; leveldb.faults := [None; Some "disk full"];
         leveldb.strict_delete := true; leveldb.calls := [] |}
      [[Byte.x61]; [Byte.x62]; [Byte.x63]]
      = (db', Some (ErrIO "disk full"))
    ∧ leveldb.calls db' =
        [leveldb.CallPut "leaf-0" [Byte.x61]; leveldb.CallPut "leaf-1" [Byte.x62]]
    ∧ leveldb.data db' !! "leaf-0" = Some [Byte.x61]
    ∧ leveldb.data db' !! "leaf-1" = None
    ∧ leveldb.data db' !! "leaf-2" = None.
Proof.
  destruct (proj2 (LeafStoreFacts.save_leaves_stops_without_rollback
                     {| leveldb.data := ∅;
                        leveldb.faults := [None; Some "disk full"];
                        leveldb.strict_delete := true; leveldb.calls := [] |}
                     [[Byte.x61]; [Byte.x62]; [Byte.x63]])
                  1%nat "disk full")
    as (db' & Hrun & Hcalls & Hkept & Hother).
  - simpl. lia.
  - compute_done.
  - reflexivity.
  - exists db'. split; [exact Hrun|]. split; [exact Hcalls|]. split.
    + apply (Hkept 0%nat); [lia | reflexivity].
    + split; apply Hother; intros [|j] Hj; (lia || by vm_compute).
Defined.

(** Pruning two keys, one of them absent, twice in a row on a store
    that reports not-found. *)
Lemma prune_swallows_not_found_witness :
  ∃ db1 db2,
    PruneOldLeaves
      {| leveldb.data := {[ "leaf-0" := [Byte.x61] ]}; leveldb.faults := [];
         leveldb.strict_delete := true; leveldb.calls := [] |} 2
      = (db1, None)
    ∧ PruneOldLeaves db1 2 = (db2, None)
    ∧ leveldb.data db1 !! "leaf-0" = None
    ∧ leveldb.data db2 = leveldb.data db1.
Proof.
  destruct (proj2 (proj2 (LeafStoreFacts.prune_swallows_not_found
                     {| leveldb.data := {[ "leaf-0" := [Byte.x61] ]};
                        leveldb.faults := []; leveldb.strict_delete := true;
                        leveldb.calls := [] |} 2)))
    as (db1 & db2 & Hfirst & Hsecond & Hgone & Hsame).
  - compute_done.
  - exists db1, db2. split; [exact Hfirst|]. split; [exact Hsecond|].
    split; [apply (Hgone 0); lia | exact Hsame].
Defined.

(** Saving a two-byte digest and loading it again. *)
Lemma root_file_round_trip_witness :
  SaveRootHashToFile {| ioutil.files := ∅; ioutil.faults := [] |}
      {| Hash := [Byte.xab; Byte.xcd]; Left := None; Right := None |}
      "merkle_root_hash.bin"
    = ({| ioutil.files := {[ "merkle_root_hash.bin" := [Byte.xab; Byte.xcd] ]};
          ioutil.faults := [] |}, None)
  ∧ (LoadRootHashFromFile
       {| ioutil.files := {[ "merkle_root_hash.bin" := [Byte.xab; Byte.xcd] ]};
          ioutil.faults := [] |}
       "merkle_root_hash.bin").2 = Ok [Byte.xab; Byte.xcd].
Proof.
  assert (SaveRootHashToFile {| ioutil.files := ∅; ioutil.faults := [] |}
            {| Hash := [Byte.xab; Byte.xcd]; Left := None; Right := None |}
            "merkle_root_hash.bin"
          = ({| ioutil.files := {[ "merkle_root_hash.bin" := [Byte.xab; Byte.xcd] ]};
                ioutil.faults := [] |}, None)) as Hsave by reflexivity.
  split; [exact Hsave|].
  exact (proj2 (root_file_round_trip _ _ _ _ Hsave)).
Defined.

(** With the initial ceiling of 1 GiB: a file of exactly 2^30 bytes is
    mapped, a file of 2^30 + 1 bytes is refused. *)
Lemma map_file_ceiling_witness :
  (∃ data,
     (MemoryMapFile initial
        {| os.files := {[ "leaves.bin" :=
                            {| os.size := 2 ^ 30; os.byteAt := λ _, Byte.x00 |} ]};
           os.faults := []; os.mappings := []; os.trace := [] |}
        "leaves.bin").2 = Ok data
     ∧ os.len data = 2 ^ 30)
  ∧ (MemoryMapFile initial
       {| os.files := {[ "leaves.bin" :=
                           {| os.size := 2 ^ 30 + 1; os.byteAt := λ _, Byte.x00 |} ]};
          os.faults := []; os.mappings := []; os.trace := [] |}
       "leaves.bin").2 = Err (tooLarge (2 ^ 30)).
Proof.
  split.
  - apply (map_file_ceiling initial _ "leaves.bin"
             {| os.size := 2 ^ 30; os.byteAt := λ _, Byte.x00 |});
      [reflexivity | compute_done | reflexivity | reflexivity
      | reflexivity].
  - apply (map_file_ceiling initial _ "leaves.bin"
             {| os.size := 2 ^ 30 + 1; os.byteAt := λ _, Byte.x00 |});
      [reflexivity | compute_done | reflexivity].
Defined.

(** ** The further properties at concrete inputs *)

Lemma sampleSum256_length (data : bytes) : length (sampleSum256 data) = 32%nat.
Proof. unfold sampleSum256. by rewrite length_fmap, length_seq. Qed.

Lemma prefixSum256_length (data : bytes) : length (prefixSum256 data) = 32%nat.
Proof.
  unfold prefixSum256. rewrite length_take, length_app, length_replicate. lia.
Qed.

(** Three leaves: three childless nodes, five nodes. *)
Lemma build_node_count_witness :
  ∃ root,
    HashTree.BuildHashTree sampleSum256 [[Byte.x61]; [Byte.x62]; [Byte.x63]]
      = Some root
    ∧ length (fringe root) = 3%nat
    ∧ (length (nodesOf root) + 1 = 2 * 3)%nat.
Proof.
  eexists. split; [reflexivity|].
  apply (HashTreeShape.build_node_count sampleSum256
           [[Byte.x61]; [Byte.x62]; [Byte.x63]]).
  reflexivity.
Defined.

Lemma build_digest_size_witness :
  ∃ root,
    HashTree.BuildHashTree sampleSum256 [[Byte.x61]; [Byte.x62]; [Byte.x63]]
      = Some root
    ∧ ∀ n, n ∈ nodesOf root → length (Hash n) = 32%nat.
Proof.
  eexists. split; [reflexivity|].
  apply (HashTreeShape.build_digest_size sampleSum256
           [[Byte.x61]; [Byte.x62]; [Byte.x63]]);
    [apply sampleSum256_length | reflexivity].
Defined.

(** The empty leaf and the leaf of one zero byte have the same padded
    prefix: two one-leaf trees with one root digest. *)
Lemma same_root_needs_collision_witness :
  [[] : bytes] ≠ [[Byte.x00]]
  ∧ ∃ x y : bytes, x ≠ y ∧ prefixSum256 x = prefixSum256 y.
Proof.
  split; [done|].
  eapply (HashTreeShape.same_root_needs_collision prefixSum256
            [[]] [[Byte.x00]]);
    [apply prefixSum256_length | reflexivity | done | reflexivity
    | reflexivity | reflexivity].
Defined.

Lemma leaf_keys_distinct_witness : leafKey 1 ≠ leafKey 10.
Proof. apply LeafStoreCompose.leaf_keys_distinct. lia. Defined.

(** One leaf saved to an empty store, as the example program does, and
    fetched under ["leaf-0"]. *)
Lemma save_then_fetch_witness :
  ∃ db',
    SaveLeavesToDB
      {| leveldb.data := ∅; leveldb.faults := [];
         leveldb.strict_delete := false; leveldb.calls := [] |}
      [[Byte.x61]] = (db', None)
    ∧ (FetchLeafFromDB db' "leaf-0").2 = Ok [Byte.x61]
    ∧ (FetchLeafFromDB db' "leaf-1").2 = Err ErrNotFound.
Proof.
  destruct (LeafStoreCompose.save_then_fetch
              {| leveldb.data := ∅; leveldb.faults := [];
                 leveldb.strict_delete := false; leveldb.calls := [] |}
              [[Byte.x61]])
    as (db' & Hsave & Hstored & Hother); [compute_done|].
  exists db'. split; [exact Hsave|]. split.
  - apply (Hstored 0%nat). reflexivity.
  - apply (Hother "leaf-1"). intros [|j] Hj; [by vm_compute | simpl in Hj; lia].
Defined.

Lemma batch_agrees_with_loop_witness :
  ∃ looped batched,
    SaveLeavesToDB
      {| leveldb.data := ∅; leveldb.faults := [];
         leveldb.strict_delete := false; leveldb.calls := [] |}
      [[Byte.x61]; [Byte.x62]] = (looped, None)
    ∧ SaveLeavesBatchToDB
        {| leveldb.data := ∅; leveldb.faults := [];
           leveldb.strict_delete := false; leveldb.calls := [] |}
        [[Byte.x61]; [Byte.x62]] = (batched, None)
    ∧ leveldb.data batched = leveldb.data looped
    ∧ length (leveldb.calls looped) = 2%nat
    ∧ length (leveldb.calls batched) = 1%nat.
Proof.
  apply (LeafStoreCompose.batch_agrees_with_loop
           {| leveldb.data := ∅; leveldb.faults := [];
              leveldb.strict_delete := false; leveldb.calls := [] |}
           [[Byte.x61]; [Byte.x62]]).
  compute_done.
Defined.

(** Three leaves saved, the first one pruned. *)
Lemma save_then_prune_witness :
  ∃ saved pruned,
    SaveLeavesToDB
      {| leveldb.data := ∅; leveldb.faults := [];
         leveldb.strict_delete := true; leveldb.calls := [] |}
      [[Byte.x61]; [Byte.x62]; [Byte.x63]] = (saved, None)
    ∧ PruneOldLeaves saved 1 = (pruned, None)
    ∧ leveldb.data pruned !! "leaf-0" = None
    ∧ leveldb.data pruned !! "leaf-1" = Some [Byte.x62]
    ∧ leveldb.data pruned !! "leaf-2" = Some [Byte.x63].
Proof.
  destruct (LeafStoreCompose.save_then_prune
              {| leveldb.data := ∅; leveldb.faults := [];
                 leveldb.strict_delete := true; leveldb.calls := [] |}
              [[Byte.x61]; [Byte.x62]; [Byte.x63]] 1)
    as (saved & pruned & Hsave & Hprune & Hgone & Hkept & _);
    [simpl; lia | compute_done |].
  exists saved, pruned. split; [exact Hsave|]. split; [exact Hprune|].
  split; [apply (Hgone 0%nat); lia|].
  split; [apply (Hkept 1%nat) | apply (Hkept 2%nat)]; (lia || reflexivity).
Defined.

Lemma root_file_overwrite_witness :
  ∃ fs1 fs2,
    SaveRootHashToFile {| ioutil.files := ∅; ioutil.faults := [] |}
        {| Hash := [Byte.x01; Byte.x02]; Left := None; Right := None |}
        "merkle_root_hash.bin" = (fs1, None)
    ∧ SaveRootHashToFile fs1
        {| Hash := [Byte.x03]; Left := None; Right := None |}
        "merkle_root_hash.bin" = (fs2, None)
    ∧ ioutil.files fs2 !! "merkle_root_hash.bin" = Some [Byte.x03].
Proof.
  assert (SaveRootHashToFile {| ioutil.files := ∅; ioutil.faults := [] |}
            {| Hash := [Byte.x01; Byte.x02]; Left := None; Right := None |}
            "merkle_root_hash.bin"
          = ({| ioutil.files := {[ "merkle_root_hash.bin" := [Byte.x01; Byte.x02] ]};
                ioutil.faults := [] |}, None)) as Hfirst by reflexivity.
  assert (SaveRootHashToFile
            {| ioutil.files := {[ "merkle_root_hash.bin" := [Byte.x01; Byte.x02] ]};
               ioutil.faults := [] |}
            {| Hash := [Byte.x03]; Left := None; Right := None |}
            "merkle_root_hash.bin"
          = ({| ioutil.files :=
                  <[ "merkle_root_hash.bin" := [Byte.x03] ]>
                    {[ "merkle_root_hash.bin" := [Byte.x01; Byte.x02] ]};
                ioutil.faults := [] |}, None)) as Hsecond by reflexivity.
  do 2 eexists. split; [exact Hfirst|]. split; [exact Hsecond|].
  exact (proj1 (root_file_overwrite _ _ _ _ _ _ Hfirst Hsecond)).
Defined.

Lemma build_save_load_witness :
  ∃ root fs1 fs2 stored,
    HashTree.BuildHashTree sampleSum256 [[Byte.x61]; [Byte.x62]] = Some root
    ∧ SaveRootHashToFile {| ioutil.files := ∅; ioutil.faults := [] |} root
        "merkle_root_hash.bin" = (fs1, None)
    ∧ ioutil.files fs1 !! "merkle_root_hash.bin" = Some stored
    ∧ length stored = 32%nat
    ∧ LoadRootHashFromFile fs1 "merkle_root_hash.bin" = (fs2, Ok (Hash root)).
Proof.
  apply (build_save_load sampleSum256 [[Byte.x61]; [Byte.x62]]
           {| ioutil.files := ∅; ioutil.faults := [] |} "merkle_root_hash.bin");
    [apply sampleSum256_length | done | compute_done].
Defined.

(** An empty file under the initial ceiling of 1 GiB. *)
Lemma map_file_empty_file_witness :
  (MemoryMapFile initial
     {| os.files := {[ "empty.bin" :=
                         {| os.size := 0; os.byteAt := λ _, Byte.x00 |} ]};
        os.faults := []; os.mappings := []; os.trace := [] |}
     "empty.bin").2
  = Err (ErrWrap "error mapping file" (ErrIO "invalid argument")).
Proof.
  apply (map_file_empty_file initial _ "empty.bin"
           {| os.size := 0; os.byteAt := λ _, Byte.x00 |});
    [reflexivity | compute_done | reflexivity | by vm_compute].
Defined.




(** A file of 2^30 + 1 bytes, before and after the ceiling is raised
    to 2 GiB. *)
Lemma ceiling_change_takes_effect_witness :
  (MemoryMapFile initial
     {| os.files := {[ "leaves.bin" :=
                         {| os.size := 2 ^ 30 + 1; os.byteAt := λ _, Byte.x00 |} ]};
        os.faults := []; os.mappings := []; os.trace := [] |}
     "leaves.bin").2 = Err (tooLarge (2 ^ 30))
  ∧ (MemoryMapFile (setMaxFileSize initial 2)
       {| os.files := {[ "leaves.bin" :=
                           {| os.size := 2 ^ 30 + 1; os.byteAt := λ _, Byte.x00 |} ]};
          os.faults := []; os.mappings := []; os.trace := [] |}
       "leaves.bin").2
    = Ok {| os.len := 2 ^ 30 + 1; os.at_ := λ i, Byte.x00 |}.
Proof.
  destruct (ceiling_change_takes_effect initial 2
              {| os.files := {[ "leaves.bin" :=
                                  {| os.size := 2 ^ 30 + 1;
                                     os.byteAt := λ _, Byte.x00 |} ]};
                 os.faults := []; os.mappings := []; os.trace := [] |}
              "leaves.bin"
              {| os.size := 2 ^ 30 + 1; os.byteAt := λ _, Byte.x00 |})
    as (Hbefore & Hafter & _);
    [reflexivity | compute_done | lia | by vm_compute | reflexivity |].
  split; [exact Hbefore | exact Hafter].
Defined.

(** Four leaves: a perfect tree of height 2. *)
Lemma build_power_of_two_perfect_witness :
  ∃ root,
    HashTree.BuildHashTree sampleSum256
      [[Byte.x61]; [Byte.x62]; [Byte.x63]; [Byte.x64]] = Some root
    ∧ perfect 2 root.
Proof.
  apply (HashTreeShape.build_power_of_two_perfect sampleSum256
           [[Byte.x61]; [Byte.x62]; [Byte.x63]; [Byte.x64]] 2).
  reflexivity.
Defined.
